(** * Highway traffic simulation: a shallow embedding of [highway_simulation.py]

    The engine of the three-lane highway simulation ([HighwaySimulation] and
    the [Car] / [Lane] data model) is embedded function by function.
    The sweep driver [run_simulation] and the colour rule of the video
    ([HighwayVisualizer._get_car_color] of [generate_video.py]) follow.

    Conventions of the embedding:
    - Python floats are read as exact rationals ([Q]); [float('inf')] is the
      constructor [Infinite] of [Dist].  No operation of the engine can
      produce a NaN.  Where rounding decides a property, the expression
      is evaluated on binary64 ([free_road_speed_binary64]).
    - Comparisons are boolean and follow the Python operators; Python's
      two-argument [min] and [max] coincide with [Qmin] and [Qmax] (both
      return their first argument unless the second is strictly better).
    - The module-global generator of Python's [random] is an explicit state
      [Rng] threaded through every function that draws from it.
    - A method that mutates [self] or a car returns the new value; a pass
      [for car in self.cars] that mutates the cars in place keeps the live
      collection as the already-updated prefix followed by the cars still to
      be visited. *)

From Stdlib Require Import PrimFloat.
From Stdlib Require Import String.
From Stdlib Require Import QArith Qminmax Qabs ZArith NArith List Bool Lia Lqa.
From Stdlib Require Import Permutation Sorted.
Import ListNotations.
Open Scope Q_scope.

(** ** Numbers *)

(** Python's [x < y] on floats. *)
Definition Qlt_bool (x y : Q) : bool := negb (Qle_bool y x).

(** A distance is a float that may be [float('inf')]. *)
Inductive Dist : Type :=
| Finite (d : Q)
| Infinite.

(** Python's [d1 < d2] on distances. *)
Definition dist_ltb (d1 d2 : Dist) : bool :=
  match d1, d2 with
  | Finite a, Finite b => Qlt_bool a b
  | Finite _, Infinite => true
  | Infinite, _ => false
  end.

(** ** The generator of Python's [random] module

    The generator is a source of raw words read at a cursor; every draw
    advances the cursor.  Quantifying over the source quantifies over all the
    outcomes the generator can have. *)

Record Rng : Type := mkRng { source : nat -> N; cursor : nat }.

Definition next_raw (g : Rng) : N * Rng :=
  (source g (cursor g), mkRng (source g) (S (cursor g))).

(** [random.random()]: a 53-bit fraction in [0, 1). *)
Definition random_random (g : Rng) : Q * Rng :=
  let (w, g') := next_raw g in
  (Z.of_N (w mod 2 ^ 53) # 2 ^ 53, g').

(** [random.uniform(a, b)] is [a + (b - a) * random()]. *)
Definition random_uniform (a b : Q) (g : Rng) : Q * Rng :=
  let (u, g') := random_random g in
  (a + (b - a) * u, g').

(** [random.randint(a, b)]: an integer of [a .. b]. *)
Definition random_randint (a b : Z) (g : Rng) : Z * Rng :=
  let (w, g') := next_raw g in
  ((a + Z.of_N w mod (b - a + 1))%Z, g').

(** The square root of [random.triangular], rounded down to 53 fractional
    bits. *)
Definition Qsqrt53 (x : Q) : Q :=
  Z.sqrt ((Qnum x * 2 ^ 106) / Zpos (Qden x)) # 2 ^ 53.

(** [random.triangular(low, high, mode)]. *)
Definition random_triangular (low high mode : Q) (g : Rng) : Q * Rng :=
  let (u, g') := random_random g in
  if Qeq_bool high low then (low, g')
  else
    let c := (mode - low) / (high - low) in
    if Qlt_bool c u
    then (high + (low - high) * Qsqrt53 ((1 - u) * (1 - c)), g')
    else (low + (high - low) * Qsqrt53 (u * c), g').

(** [random.seed(s)]: the state of the generator afterwards depends on the
    seed alone; [mt] is the sequence of raw words each seed stands for. *)
Definition random_seed (mt : Z -> nat -> N) (s : Z) (_ : Rng) : Rng :=
  mkRng (mt s) 0.

(** ** Data model *)

Inductive Lane : Type := RIGHT | MIDDLE | LEFT.

Definition Lane_value (l : Lane) : Z :=
  match l with RIGHT => 0 | MIDDLE => 1 | LEFT => 2 end.

(** [Lane(v)].  Python raises [ValueError] outside [0 .. 2]; the engine
    only builds a lane from a value in range (lemmas [Lane_of_right_guard],
    [Lane_of_left_guard] and [random_randint_lane]), and the embedding maps
    any other value to [LEFT]. *)
Definition Lane_of (v : Z) : Lane :=
  if (v =? 0)%Z then RIGHT else if (v =? 1)%Z then MIDDLE else LEFT.

Definition Lane_eqb (a b : Lane) : bool :=
  match a, b with
  | RIGHT, RIGHT | MIDDLE, MIDDLE | LEFT, LEFT => true
  | _, _ => false
  end.

Record Car : Type := mkCar {
  position : Q;
  speed : Q;
  lane : Lane;
  max_speed : Q;
  follows_bad_practice : bool
}.

Definition set_lane (car : Car) (l : Lane) : Car :=
  mkCar (position car) (speed car) l (max_speed car) (follows_bad_practice car).

Definition set_speed (car : Car) (v : Q) : Car :=
  mkCar (position car) v (lane car) (max_speed car) (follows_bad_practice car).

Definition set_position (car : Car) (p : Q) : Car :=
  mkCar p (speed car) (lane car) (max_speed car) (follows_bad_practice car).

Record HighwaySimulation : Type := mkSim {
  num_cars : Z;
  highway_length : Q;
  bad_practice_ratio : Q;
  spawn_probability : Q;
  cars : list Car;
  time_step : Q;
  traffic_jam_detected : bool
}.

Definition set_cars (self : HighwaySimulation) (l : list Car) : HighwaySimulation :=
  mkSim (num_cars self) (highway_length self) (bad_practice_ratio self)
        (spawn_probability self) l (time_step self) (traffic_jam_detected self).

Definition set_traffic_jam_detected (self : HighwaySimulation) (b : bool)
  : HighwaySimulation :=
  mkSim (num_cars self) (highway_length self) (bad_practice_ratio self)
        (spawn_probability self) (cars self) (time_step self) b.

(** ** Sorting by position

    [sorted(..., key=lambda c: c.position)] and [list.sort] are stable; a
    stable insertion sort computes the same list. *)

Fixpoint insert_by_position (c : Car) (l : list Car) : list Car :=
  match l with
  | [] => [c]
  | d :: r =>
      if Qle_bool (position c) (position d) then c :: l
      else d :: insert_by_position c r
  end.

Definition sort_by_position (l : list Car) : list Car :=
  fold_right insert_by_position [] l.

(** ** Queries on the collection *)

Definition _get_cars_in_lane (self : HighwaySimulation) (l : Lane) : list Car :=
  sort_by_position (filter (fun c => Lane_eqb (lane c) l) (cars self)).

Definition _get_distance (car1 car2 : Car) : Dist :=
  if Qlt_bool (position car1) (position car2)
  then Finite (position car2 - position car1)
  else Infinite.

Definition _is_car_ahead (car1 car2 : Car) : bool :=
  if negb (Lane_eqb (lane car2) (lane car1)) then false
  else Qlt_bool (position car1) (position car2).

(** The loop over [cars_in_target], the same in [_can_pass_on_left] and in
    [_should_move_to_right]. *)
Fixpoint target_lane_clear (safe_distance : Q) (car : Car)
         (cars_in_target : list Car) : bool :=
  match cars_in_target with
  | [] => true
  | other_car :: rest =>
      if _is_car_ahead car other_car then
        if dist_ltb (_get_distance car other_car) (Finite safe_distance)
        then false
        else target_lane_clear safe_distance car rest
      else
        if dist_ltb (_get_distance other_car car) (Finite safe_distance)
        then false
        else target_lane_clear safe_distance car rest
  end.

Definition _can_pass_on_left (self : HighwaySimulation) (car : Car) : bool :=
  if Lane_eqb (lane car) LEFT then false
  else
    let target_lane := Lane_of (Lane_value (lane car) + 1) in
    let cars_in_target := _get_cars_in_lane self target_lane in
    target_lane_clear 50 car cars_in_target.

Definition _should_move_to_right (self : HighwaySimulation) (car : Car) : bool :=
  if Lane_eqb (lane car) RIGHT then false
  else
    let target_lane := Lane_of (Lane_value (lane car) - 1) in
    let cars_in_target := _get_cars_in_lane self target_lane in
    target_lane_clear 50 car cars_in_target.

(** The search for the car directly ahead, written three times in the
    source ([is_blocked], [_update_car_lane], [_update_car_speed]): one
    iteration of the loop, on the pair [(car_ahead, min_distance)]. *)
Definition scan_ahead (car : Car) (acc : option Car * Dist) (other_car : Car)
  : option Car * Dist :=
  if _is_car_ahead car other_car then
    let distance := _get_distance car other_car in
    if dist_ltb distance (snd acc) then (Some other_car, distance) else acc
  else acc.

Definition find_car_ahead (car : Car) (cars_in_same_lane : list Car) : option Car :=
  fst (fold_left (scan_ahead car) cars_in_same_lane (None, Infinite)).

Definition is_blocked (self : HighwaySimulation) (car : Car) : bool :=
  let cars_in_same_lane := _get_cars_in_lane self (lane car) in
  match find_car_ahead car cars_in_same_lane with
  | None => false
  | Some car_ahead =>
      if Qle_bool (speed car) (speed car_ahead) then false
      else if _can_pass_on_left self car then false
      else if Lane_eqb (lane car) LEFT then true
      else dist_ltb (_get_distance car car_ahead) (Finite 50)
  end.

(** ** Car creation and construction *)

Definition _create_car (self : HighwaySimulation) (position : option Q)
           (lane : option Lane) (g : Rng) : Car * Rng :=
  let (position, g1) :=
    match position with
    | None => random_uniform 0 (highway_length self) g
    | Some p => (p, g)
    end in
  let (max_speed, g2) := random_triangular 90 130 128 g1 in
  let (factor, g3) := random_uniform (90 # 100) (98 # 100) g2 in
  let speed := max_speed * factor in
  let (lane, g4) :=
    match lane with
    | Some l => (l, g3)
    | None => let (v, g') := random_randint 0 2 g3 in (Lane_of v, g')
    end in
  let (r, g5) := random_random g4 in
  let follows_bad_practice := Qlt_bool r (bad_practice_ratio self) in
  (mkCar position speed lane max_speed follows_bad_practice, g5).

(** [for i in range(n): self.cars.append(self._create_car())]. *)
Fixpoint create_cars (n : nat) (self : HighwaySimulation) (g : Rng)
  : HighwaySimulation * Rng :=
  match n with
  | O => (self, g)
  | S n' =>
      let (car, g') := _create_car self None None g in
      create_cars n' (set_cars self (cars self ++ [car])) g'
  end.

Definition _initialize_cars (self : HighwaySimulation) (g : Rng)
  : HighwaySimulation * Rng :=
  let (self1, g') := create_cars (Z.to_nat (num_cars self)) (set_cars self []) g in
  (set_cars self1 (sort_by_position (cars self1)), g').

(** [HighwaySimulation.__init__]. *)
Definition __init__ (num_cars : Z) (highway_length bad_practice_ratio
                     spawn_probability : Q) (g : Rng) : HighwaySimulation * Rng :=
  _initialize_cars
    (mkSim num_cars highway_length bad_practice_ratio spawn_probability
           [] (1 # 10) false) g.

(** A Python call returns a value or raises. *)
Inductive Outcome (A : Type) : Type :=
| Returns (a : A)
| Raises (error : unit).
Arguments Returns {A} a.
Arguments Raises {A} error.

(** The constructor call [HighwaySimulation(num_cars, highway_length,
    bad_practice_ratio, spawn_probability)]: the body of [__init__] has no
    [raise] and calls nothing that raises. *)
Definition HighwaySimulation_new (num_cars : Z) (highway_length
             bad_practice_ratio spawn_probability : Q) (g : Rng)
  : Outcome (HighwaySimulation * Rng) :=
  Returns (__init__ num_cars highway_length bad_practice_ratio spawn_probability g).

(** ** The per-car updates *)

Definition _update_car_lane (self : HighwaySimulation) (car : Car) (g : Rng)
  : Car * Rng :=
  if negb (follows_bad_practice car) && _should_move_to_right self car
  then (set_lane car (Lane_of (Lane_value (lane car) - 1)), g)
  else
    let (stay, g1) :=
      if follows_bad_practice car && Lane_eqb (lane car) MIDDLE
      then let (u, g') := random_random g in (Qlt_bool u (7 # 10), g')
      else (false, g) in
    if stay then (car, g1)
    else
      let cars_in_same_lane := _get_cars_in_lane self (lane car) in
      let car_ahead := find_car_ahead car cars_in_same_lane in
      let passing :=
        match car_ahead with
        | Some a => Qlt_bool (speed a) (speed car) && _can_pass_on_left self car
        | None => false
        end in
      if passing
      then (set_lane car (Lane_of (Lane_value (lane car) + 1)), g1)
      else if negb (follows_bad_practice car) && negb (Lane_eqb (lane car) RIGHT)
              && _should_move_to_right self car
      then (set_lane car (Lane_of (Lane_value (lane car) - 1)), g1)
      else (car, g1).

Definition _update_car_speed (self : HighwaySimulation) (car : Car) : Car :=
  let cars_in_same_lane := _get_cars_in_lane self (lane car) in
  let new_speed :=
    match find_car_ahead car cars_in_same_lane with
    | None => Qmin (speed car + 2 * time_step self) (max_speed car)
    | Some car_ahead =>
        let distance := _get_distance car car_ahead in
        let safe_distance := 30 + speed car * (1 # 2) in
        if dist_ltb distance (Finite safe_distance)
        then Qmax (speed car_ahead - 5) (speed car - 5 * time_step self)
        else if dist_ltb distance (Finite (safe_distance * (3 # 2)))
        then speed car_ahead
        else Qmin (speed car + 2 * time_step self) (max_speed car)
    end in
  set_speed car (Qmax 0 new_speed).

Definition _update_car_position (self : HighwaySimulation) (car : Car) : Car :=
  set_position car
    (position car + speed car * time_step self * (1000 / 3600)).

(** ** Spawning *)

Definition _has_space_for_spawn (self : HighwaySimulation) (position0 : Q)
           (lane0 : Lane) (clearance : Q) : bool :=
  forallb (fun other =>
             negb (Lane_eqb (lane other) lane0
                   && Qlt_bool (Qabs (position other - position0)) clearance))
          (cars self).

(** The body of [for _ in range(missing_cars)], [n] iterations. *)
Fixpoint spawn_attempts (n : nat) (self : HighwaySimulation) (g : Rng)
  : HighwaySimulation * Rng :=
  match n with
  | O => (self, g)
  | S n' =>
      let (u, g1) := random_random g in
      if Qlt_bool u (spawn_probability self) then
        let (v, g2) := random_randint 0 2 g1 in
        let lane0 := Lane_of v in
        let (position0, g3) := random_uniform 0 20 g2 in
        if _has_space_for_spawn self position0 lane0 30 then
          let (new_car, g4) := _create_car self (Some position0) (Some lane0) g3 in
          spawn_attempts n' (set_cars self (cars self ++ [new_car])) g4
        else spawn_attempts n' self g3
      else spawn_attempts n' self g1
  end.

Definition _spawn_new_cars_if_needed (self : HighwaySimulation) (g : Rng)
  : HighwaySimulation * Rng :=
  let missing_cars := (num_cars self - Z.of_nat (length (cars self)))%Z in
  spawn_attempts (Z.to_nat missing_cars) self g.

(** ** One tick *)

(** [for car in self.cars: self._update_car_lane(car)]: [done] are the cars
    already updated, [todo] those still to visit; the car being visited sees
    the live collection [done ++ todo]. *)
Fixpoint lane_pass (self : HighwaySimulation) (done todo : list Car) (g : Rng)
  : list Car * Rng :=
  match todo with
  | [] => (done, g)
  | car :: rest =>
      let (car', g') := _update_car_lane (set_cars self (done ++ todo)) car g in
      lane_pass self (done ++ [car']) rest g'
  end.

Fixpoint speed_pass (self : HighwaySimulation) (done todo : list Car) : list Car :=
  match todo with
  | [] => done
  | car :: rest =>
      let car' := _update_car_speed (set_cars self (done ++ todo)) car in
      speed_pass self (done ++ [car']) rest
  end.

Definition position_pass (self : HighwaySimulation) (l : list Car) : list Car :=
  map (_update_car_position self) l.

(** [dist < 100.0] for some two consecutive cars of [lane_blocked]. *)
Fixpoint close_pair (lane_blocked : list Car) : bool :=
  match lane_blocked with
  | a :: (b :: _) as rest =>
      dist_ltb (_get_distance a b) (Finite 100) || close_pair rest
  | _ => false
  end.

(** The jam detector at the end of [step]: whether the flag gets set. *)
Definition jam_found (self : HighwaySimulation) : bool :=
  let blocked_cars := filter (is_blocked self) (cars self) in
  (3 <=? length blocked_cars)%nat
  && existsb (fun l =>
                let lane_blocked := filter (fun c => Lane_eqb (lane c) l) blocked_cars in
                (2 <=? length lane_blocked)%nat
                && close_pair (sort_by_position lane_blocked))
             [LEFT; MIDDLE; RIGHT].

(** The cars after the three passes, before despawn. *)
Definition moved_cars (self : HighwaySimulation) (g : Rng) : list Car * Rng :=
  let (l1, g1) := lane_pass self [] (cars self) g in
  let l2 := speed_pass self [] l1 in
  (position_pass self l2, g1).

Definition step (self : HighwaySimulation) (g : Rng) : HighwaySimulation * Rng :=
  let (l3, g1) := moved_cars self g in
  let self1 :=
    set_cars self
      (filter (fun car => Qle_bool (position car) (highway_length self)) l3) in
  let (self2, g2) := _spawn_new_cars_if_needed self1 g1 in
  let self3 := set_cars self2 (sort_by_position (cars self2)) in
  if jam_found self3
  then (set_traffic_jam_detected self3 true, g2)
  else (self3, g2).

(** ** Runs *)

(** [for step in range(max_steps)] from index [i], [n] iterations left. *)
Fixpoint run_loop (n : nat) (i : Z) (self : HighwaySimulation) (g : Rng)
  : bool * HighwaySimulation * Rng :=
  match n with
  | O => (false, self, g)
  | S n' =>
      let (self', g') := step self g in
      if (100 <? i)%Z && traffic_jam_detected self'
      then (true, self', g')
      else run_loop n' (i + 1)%Z self' g'
  end.

Definition run (self : HighwaySimulation) (max_steps : Z) (g : Rng)
  : bool * HighwaySimulation * Rng :=
  run_loop (Z.to_nat max_steps) 0 (set_traffic_jam_detected self false) g.

(** [k] calls of [step()] in a row. *)
Fixpoint steps (k : nat) (self : HighwaySimulation) (g : Rng)
  : HighwaySimulation * Rng :=
  match k with
  | O => (self, g)
  | S k' => let (self', g') := step self g in steps k' self' g'
  end.

(** The engine part of [generate_simulation_video]: seed the global
    generator when a seed is given, then construct the engine. *)
Definition seeded_construction (mt : Z -> nat -> N) (seed : option Z)
           (num_cars : Z) (highway_length bad_practice_ratio : Q) (g : Rng)
  : HighwaySimulation * Rng :=
  let g1 := match seed with Some s => random_seed mt s g | None => g end in
  __init__ num_cars highway_length bad_practice_ratio (3 # 10) g1.

(** ** Notions used to state the properties *)

(** The state of the search for the car ahead is consistent: the distance
    kept is the distance to the car kept. *)
Definition scan_state_ok (car : Car) (acc : option Car * Dist) : Prop :=
  match fst acc with
  | Some c => _is_car_ahead car c = true /\ snd acc = _get_distance car c
  | None => snd acc = Infinite
  end.

Definition position_le (a b : Car) : Prop := position a <= position b.

(** [other] is in the lane of [car], at exactly the position of [car]. *)
Definition co_located (car other : Car) : bool :=
  Lane_eqb (lane other) (lane car) && Qeq_bool (position other) (position car).

(** The engine with the cars co-located with [car] taken out of the
    collection. *)
Definition without_co_located (self : HighwaySimulation) (car : Car)
  : HighwaySimulation :=
  set_cars self (filter (fun o => negb (co_located car o)) (cars self)).

(** ** Concrete engines used as test inputs *)

(** No draw of this generator is below any probability: every raw word is
    zero, so [random()] is [0], lanes drawn are [RIGHT]. *)
Definition zero_rng : Rng := mkRng (fun _ => 0%N) 0.

(** A car in the middle lane with a car 10 m ahead of it in each
    neighbouring lane. *)
Definition car_between : Car := mkCar 0 100 MIDDLE 105 false.
Definition car_right_ahead : Car := mkCar 10 100 RIGHT 105 false.
Definition car_left_ahead : Car := mkCar 10 100 LEFT 105 false.
Definition sim_close_ahead : HighwaySimulation :=
  mkSim 3 2000 0 (3 # 10) [car_between; car_right_ahead; car_left_ahead]
        (1 # 10) false.

(** A slow car 100 m behind a fast one, both in the left lane. *)
Definition slow_follower : Car := mkCar 0 85 LEFT 90 true.
Definition fast_leader : Car := mkCar 100 125 LEFT 130 true.
Definition sim_follow : HighwaySimulation :=
  mkSim 2 2000 1 (3 # 10) [slow_follower; fast_leader] (1 # 10) false.

(** The same slow car 50 m behind the fast one. *)
Definition near_leader : Car := mkCar 50 125 LEFT 130 true.
Definition sim_follow_near : HighwaySimulation :=
  mkSim 2 2000 1 (3 # 10) [slow_follower; near_leader] (1 # 10) false.

(** Four cars queueing in the left lane 10 m before the end of a 40 m
    segment that admits no new car ([spawn_probability = 0]). *)
Definition queue_cars : list Car :=
  [mkCar 30 100 LEFT 105 true; mkCar 32 95 LEFT 100 true;
   mkCar 34 92 LEFT 100 true; mkCar 36 90 LEFT 95 true].
Definition sim_queue : HighwaySimulation :=
  mkSim 4 40 1 0 queue_cars (1 # 10) false.

(** The engine [sim_queue] after [k] ticks of a run. *)
Definition sim_queue_after (k : nat) : HighwaySimulation :=
  fst (steps k (set_traffic_jam_detected sim_queue false) zero_rng).

(** ** The branches of [_update_car_lane], named

    Which branch of [_update_car_lane] is taken, with the code's own tests:
    [_should_move_to_right] and [_can_pass_on_left] as the engine computes
    them. *)

Definition lane_right_of (l : Lane) : Lane :=
  match l with LEFT => MIDDLE | _ => RIGHT end.

Definition lane_left_of (l : Lane) : Lane :=
  match l with RIGHT => MIDDLE | _ => LEFT end.

(** The nearest car ahead in the car's lane exists and is slower. *)
Definition slower_car_ahead (self : HighwaySimulation) (car : Car) : bool :=
  match find_car_ahead car (_get_cars_in_lane self (lane car)) with
  | Some a => Qlt_bool (speed a) (speed car)
  | None => false
  end.

Inductive LaneRule : Type :=
| ReturnRight      (* rule 1 *)
| DwellInMiddle    (* rule 2 *)
| OvertakeLeft     (* rule 3 *)
| LateReturnRight  (* rule 4 *)
| KeepLane.        (* no rule fires *)

(** The test of the first [if] of [_update_car_lane]. *)
Definition return_right_applies (self : HighwaySimulation) (car : Car) : bool :=
  negb (follows_bad_practice car) && _should_move_to_right self car.

(** The tests of the overtaking branch. *)
Definition overtake_applies (self : HighwaySimulation) (car : Car) : bool :=
  slower_car_ahead self car && _can_pass_on_left self car.

(** The branches after the dwell roll. *)
Definition late_rules (self : HighwaySimulation) (car : Car) : LaneRule :=
  if overtake_applies self car then OvertakeLeft
  else if return_right_applies self car then LateReturnRight
  else KeepLane.

(** The branch taken. *)
Definition lane_rule_fired (self : HighwaySimulation) (car : Car) (g : Rng)
  : LaneRule * Rng :=
  if return_right_applies self car then (ReturnRight, g)
  else if follows_bad_practice car && Lane_eqb (lane car) MIDDLE then
    let (u, g') := random_random g in
    if Qlt_bool u (7 # 10) then (DwellInMiddle, g')
    else (late_rules self car, g')
  else (late_rules self car, g).

Definition apply_lane_rule (car : Car) (r : LaneRule) : Car :=
  match r with
  | ReturnRight | LateReturnRight => set_lane car (lane_right_of (lane car))
  | OvertakeLeft => set_lane car (lane_left_of (lane car))
  | DwellInMiddle | KeepLane => car
  end.

(** ** The lane rules as the specification words them

    A target lane is safe when every car in it keeps the 50 m gap: ahead of
    the evaluated car when it is at a strictly greater position, behind it
    otherwise.  The four rules follow in their priority order. *)

Definition keeps_gap (car other : Car) : bool :=
  if Qlt_bool (position car) (position other)
  then negb (dist_ltb (_get_distance car other) (Finite 50))
  else negb (dist_ltb (_get_distance other car) (Finite 50)).

Definition safe_as_specified (self : HighwaySimulation) (car : Car)
           (target : Lane) : bool :=
  forallb (keeps_gap car)
          (filter (fun c => Lane_eqb (lane c) target) (cars self)).

Definition specified_return_right (self : HighwaySimulation) (car : Car) : bool :=
  negb (follows_bad_practice car) && negb (Lane_eqb (lane car) RIGHT)
  && safe_as_specified self car (lane_right_of (lane car)).

Definition specified_overtake (self : HighwaySimulation) (car : Car) : bool :=
  slower_car_ahead self car && negb (Lane_eqb (lane car) LEFT)
  && safe_as_specified self car (lane_left_of (lane car)).

(** Rules 3 and 4, reached when neither rule 1 nor rule 2 fired. *)
Definition specified_late_rules (self : HighwaySimulation) (car : Car)
  : LaneRule :=
  if specified_overtake self car then OvertakeLeft
  else if specified_return_right self car then LateReturnRight
  else KeepLane.

(** The first rule that fires. *)
Definition specified_lane_rule (self : HighwaySimulation) (car : Car) (g : Rng)
  : LaneRule * Rng :=
  if specified_return_right self car then (ReturnRight, g)
  else if follows_bad_practice car && Lane_eqb (lane car) MIDDLE then
    let (u, g') := random_random g in
    if Qlt_bool u (7 # 10) then (DwellInMiddle, g')
    else (specified_late_rules self car, g')
  else (specified_late_rules self car, g).

(** A car in the right lane behind a slower one, with a car 10 m ahead of
    it in the middle lane. *)
Definition overtaker : Car := mkCar 0 100 RIGHT 105 false.
Definition car_middle_ahead : Car := mkCar 10 100 MIDDLE 105 false.
Definition slow_leader : Car := mkCar 40 90 RIGHT 95 false.
Definition sim_overtake : HighwaySimulation :=
  mkSim 3 2000 0 (3 # 10) [overtaker; car_middle_ahead; slow_leader]
        (1 # 10) false.

(** ** A car across the three passes of a tick *)

(** [c'] is the car [c] after the lane, speed and position passes of one
    tick of [self]: the position is integrated from the new, non-negative
    speed; [max_speed] and the trait are those of [c]. *)
Definition tick_moves (self : HighwaySimulation) (c c' : Car) : Prop :=
  0 <= speed c' /\
  position c' = position c + speed c' * time_step self * (1000 / 3600) /\
  max_speed c' = max_speed c /\
  follows_bad_practice c' = follows_bad_practice c.

(** The despawn test of [step]. *)
Definition on_highway (self : HighwaySimulation) (car : Car) : bool :=
  Qle_bool (position car) (highway_length self).

(** A single car on an otherwise empty highway. *)
Definition lone_car : Car := mkCar 0 100 MIDDLE 105 false.
Definition sim_lone : HighwaySimulation :=
  mkSim 1 2000 0 (3 # 10) [lone_car] (1 # 10) false.

(** Two cars level with one another in the right lane. *)
Definition twin_a : Car := mkCar 100 110 RIGHT 120 false.
Definition twin_b : Car := mkCar 100 95 RIGHT 100 false.
Definition sim_twins : HighwaySimulation :=
  mkSim 2 2000 0 (3 # 10) [twin_a; twin_b] (1 # 10) false.

(** A generator whose raw words differ from draw to draw. *)
Definition counting_rng : Rng := mkRng (fun n => (N.of_nat n * 2 ^ 49)%N) 0.

(** ** Bounds kept by the engine *)

(** A car within the bounds its creation gives it: on the first [L] metres
    of the highway, with a speed of [0 .. 130] and a [max_speed] of
    [90 .. 130]. *)
Definition car_in_bounds (L : Q) (c : Car) : Prop :=
  0 <= position c /\ position c <= L /\
  0 <= speed c /\ speed c <= 130 /\
  90 <= max_speed c /\ max_speed c <= 130.

(** Neither the speed nor the [max_speed] of [c] is above [B]. *)
Definition speed_capped (B : Q) (c : Car) : Prop :=
  speed c <= B /\ max_speed c <= B.

(** The cars [new], appended in this order to the collection [base], were
    each admitted by the spawn pass: created within the first 20 m, within
    the bounds of creation, and 30 m clear of every car of its lane that was
    in the collection before it. *)
Fixpoint spawned_after (base new : list Car) : Prop :=
  match new with
  | [] => True
  | c :: rest =>
      (0 <= position c /\ position c < 20 /\
       90 <= max_speed c /\ max_speed c <= 130 /\
       (90 # 100) * max_speed c <= speed c /\
       speed c <= (98 # 100) * max_speed c /\
       forall o, In o base -> lane o = lane c ->
                 30 <= Qabs (position o - position c)) /\
      spawned_after (base ++ [c]) rest
  end.

(** A car 10 m into the right lane of a highway that spawns at every
    attempt. *)
Definition entry_car : Car := mkCar 10 100 RIGHT 105 false.
Definition sim_entry : HighwaySimulation :=
  mkSim 2 2000 0 1 [entry_car] (1 # 10) false.

(** ** The sweep driver [run_simulation]

    The printing is left out.  The result dict is the list of its items in
    insertion order; assigning to a key already present keeps the key's place
    and replaces its value. *)

Fixpoint dict_set (d : list (Q * Q)) (k v : Q) : list (Q * Q) :=
  match d with
  | [] => [(k, v)]
  | (k', v') :: r =>
      if Qeq_bool k' k then (k', v) :: r else (k', v') :: dict_set r k v
  end.

(** [for trial in range(num_trials)]: [n] trials left, each a fresh
    [HighwaySimulation(num_cars=num_cars, bad_practice_ratio=ratio)] run for
    800 ticks. *)
Fixpoint run_trials (n : nat) (num_cars : Z) (ratio : Q) (jam_count : Z)
         (g : Rng) : Z * Rng :=
  match n with
  | O => (jam_count, g)
  | S n' =>
      let (sim, g1) := __init__ num_cars 2000 ratio (3 # 10) g in
      let '(jam, _, g2) := run sim 800 g1 in
      run_trials n' num_cars ratio
                 (if jam then (jam_count + 1)%Z else jam_count) g2
  end.

(** [for ratio in bad_practice_ratios]; [jam_count / num_trials] raises
    [ZeroDivisionError] when [num_trials] is zero. *)
Fixpoint sweep_ratios (ratios : list Q) (num_cars num_trials : Z)
         (results : list (Q * Q)) (g : Rng) : Outcome (list (Q * Q) * Rng) :=
  match ratios with
  | [] => Returns (results, g)
  | ratio :: rest =>
      let (jam_count, g') :=
        run_trials (Z.to_nat num_trials) num_cars ratio 0 g in
      if (num_trials =? 0)%Z then Raises tt
      else
        let probability := inject_Z jam_count / inject_Z num_trials in
        sweep_ratios rest num_cars num_trials
                     (dict_set results ratio probability) g'
  end.

Definition default_ratios : list Q :=
  [0; 1 # 10; 2 # 10; 3 # 10; 4 # 10; 5 # 10; 6 # 10; 7 # 10; 8 # 10; 9 # 10; 1].

Definition run_simulation (num_cars num_trials : Z)
           (bad_practice_ratios : option (list Q)) (g : Rng)
  : Outcome (list (Q * Q) * Rng) :=
  let bad_practice_ratios :=
    match bad_practice_ratios with
    | None => default_ratios
    | Some l => l
    end in
  sweep_ratios bad_practice_ratios num_cars num_trials [] g.

(** The dict has an item under a key equal to [k]. *)
Definition dict_has (d : list (Q * Q)) (k : Q) : Prop :=
  exists k' v, In (k', v) d /\ k' == k.

(** A fleet too small for the jam detector: at most three cars wanted and
    present, and the flag down. *)
Definition small_fleet (s : HighwaySimulation) : Prop :=
  (num_cars s <= 3)%Z /\ (length (cars s) <= 3)%nat /\
  traffic_jam_detected s = false.

(** ** The colour of a car in the video ([HighwayVisualizer._get_car_color])

    The visualizer reads the engine it was given; [sim] is that engine. *)

Definition car_color_normal : string := "#2E86AB"%string.
Definition car_color_bad_practice : string := "#A23B72"%string.
Definition car_color_blocked : string := "#F18F01"%string.
Definition car_color_jam : string := "#C73E1D"%string.

(** [car == other], the field-wise equality that [@dataclass] generates and
    that [car in lane_blocked] uses. *)
Definition Car_eqb (a b : Car) : bool :=
  Qeq_bool (position a) (position b) && Qeq_bool (speed a) (speed b)
  && Lane_eqb (lane a) (lane b) && Qeq_bool (max_speed a) (max_speed b)
  && Bool.eqb (follows_bad_practice a) (follows_bad_practice b).

Definition _get_car_color (sim : HighwaySimulation) (car : Car) : string :=
  if is_blocked sim car then
    let blocked_cars := filter (is_blocked sim) (cars sim) in
    if (2 <=? length blocked_cars)%nat
       && existsb (fun l =>
                     let lane_blocked :=
                       filter (fun c => Lane_eqb (lane c) l) blocked_cars in
                     (2 <=? length lane_blocked)%nat
                     && existsb (Car_eqb car) lane_blocked
                     && close_pair (sort_by_position lane_blocked))
                  [LEFT; MIDDLE; RIGHT]
    then car_color_jam
    else car_color_blocked
  else if follows_bad_practice car then car_color_bad_practice
  else car_color_normal.

(** [sim_queue] after its first tick: a queue of blocked cars. *)
Definition sim_queue_1 : HighwaySimulation := sim_queue_after 1.
Definition queue_tail : Car := hd slow_follower (cars sim_queue_1).

(** ** The free-road branch on binary64

    The branch [car_ahead is None] of [_update_car_speed] with Python's
    floats as they are, IEEE 754 binary64, to measure what the reading of
    floats as exact rationals leaves out. *)





(** * Properties *)

(** ** Comparisons *)

Lemma Qlt_bool_iff (x y : Q) : Qlt_bool x y = true <-> x < y.
Proof.
  unfold Qlt_bool. rewrite negb_true_iff. split.
  - intro H. apply Qnot_le_lt. intro Hle.
    apply Qle_bool_iff in Hle. congruence.
  - intro H. destruct (Qle_bool y x) eqn:E; [|reflexivity].
    apply Qle_bool_iff in E. exfalso. exact (Qlt_not_le _ _ H E).
Qed.

Lemma Qlt_bool_false_iff (x y : Q) : Qlt_bool x y = false <-> y <= x.
Proof.
  unfold Qlt_bool. rewrite negb_false_iff. apply Qle_bool_iff.
Qed.

Lemma Qle_bool_false_iff (x y : Q) : Qle_bool x y = false <-> y < x.
Proof.
  rewrite <- Qlt_bool_iff. unfold Qlt_bool.
  destruct (Qle_bool x y); simpl; intuition congruence.
Qed.

Lemma Lane_eqb_eq (a b : Lane) : Lane_eqb a b = true <-> a = b.
Proof. destruct a, b; simpl; intuition congruence. Qed.

Lemma Lane_eqb_neq (a b : Lane) : Lane_eqb a b = false <-> a <> b.
Proof. destruct a, b; simpl; intuition congruence. Qed.

(** ** The lane constructor is only reached with a value in range *)

Lemma Lane_of_value (l : Lane) : Lane_of (Lane_value l) = l.
Proof. now destruct l. Qed.

Lemma Lane_of_right_guard (self : HighwaySimulation) (car : Car) :
  _should_move_to_right self car = true ->
  (0 <= Lane_value (lane car) - 1 <= 2)%Z.
Proof.
  unfold _should_move_to_right. destruct (lane car); simpl; intros; lia || discriminate.
Qed.

Lemma Lane_of_left_guard (self : HighwaySimulation) (car : Car) :
  _can_pass_on_left self car = true ->
  (0 <= Lane_value (lane car) + 1 <= 2)%Z.
Proof.
  unfold _can_pass_on_left. destruct (lane car); simpl; intros; lia || discriminate.
Qed.

Lemma random_randint_lane (g : Rng) :
  (0 <= fst (random_randint 0 2 g) <= 2)%Z.
Proof.
  unfold random_randint, next_raw. simpl.
  pose proof (Z.mod_pos_bound (Z.of_N (source g (cursor g))) 3). lia.
Qed.

(** ** The generator *)

Lemma random_random_range (g : Rng) :
  0 <= fst (random_random g) /\ fst (random_random g) < 1.
Proof.
  unfold random_random, next_raw. simpl.
  set (w := source g (cursor g)).
  assert (Hw : (w mod N.pos (2 ^ 53) < N.pos (2 ^ 53))%N)
    by (apply N.mod_lt; discriminate).
  apply N2Z.inj_lt in Hw.
  change (Z.of_N (N.pos (2 ^ 53))) with (Z.pos (2 ^ 53)) in Hw.
  pose proof (N2Z.is_nonneg (w mod N.pos (2 ^ 53))) as Hpos.
  unfold Qle, Qlt. simpl.
  generalize dependent (Z.of_N (w mod N.pos (2 ^ 53))).
  generalize (Z.pos (2 ^ 53)). intros; lia.
Qed.

(** ** Sorting *)

Lemma insert_by_position_perm (c : Car) (l : list Car) :
  Permutation (insert_by_position c l) (c :: l).
Proof.
  induction l as [|d r IH]; simpl; [reflexivity|].
  destruct (Qle_bool (position c) (position d)); [reflexivity|].
  rewrite IH. apply perm_swap.
Qed.

Lemma sort_by_position_perm (l : list Car) :
  Permutation (sort_by_position l) l.
Proof.
  induction l as [|c r IH]; simpl; [reflexivity|].
  rewrite insert_by_position_perm. now constructor.
Qed.

Lemma sort_by_position_In (c : Car) (l : list Car) :
  In c (sort_by_position l) <-> In c l.
Proof.
  split; apply Permutation_in;
    [|symmetry]; apply sort_by_position_perm.
Qed.

Lemma sort_by_position_length (l : list Car) :
  length (sort_by_position l) = length l.
Proof. apply Permutation_length, sort_by_position_perm. Qed.

Lemma _get_cars_in_lane_In (self : HighwaySimulation) (l : Lane) (c : Car) :
  In c (_get_cars_in_lane self l) <-> In c (cars self) /\ lane c = l.
Proof.
  unfold _get_cars_in_lane.
  rewrite sort_by_position_In, filter_In, Lane_eqb_eq. reflexivity.
Qed.

(** ** The car directly ahead *)

Lemma _is_car_ahead_true (car other : Car) :
  _is_car_ahead car other = true <->
  lane other = lane car /\ position car < position other.
Proof.
  unfold _is_car_ahead.
  destruct (Lane_eqb (lane other) (lane car)) eqn:E; simpl.
  - apply Lane_eqb_eq in E. rewrite Qlt_bool_iff. tauto.
  - apply Lane_eqb_neq in E. split; [discriminate | tauto].
Qed.

Lemma _is_car_ahead_false (car other : Car) :
  _is_car_ahead car other = false <->
  (lane other = lane car -> position other <= position car).
Proof.
  unfold _is_car_ahead.
  destruct (Lane_eqb (lane other) (lane car)) eqn:E; simpl.
  - apply Lane_eqb_eq in E. rewrite Qlt_bool_false_iff. tauto.
  - apply Lane_eqb_neq in E. tauto.
Qed.

Lemma _is_car_ahead_distance (car other : Car) :
  _is_car_ahead car other = true ->
  _get_distance car other = Finite (position other - position car).
Proof.
  intro H. apply _is_car_ahead_true in H as [_ H].
  unfold _get_distance. apply Qlt_bool_iff in H. now rewrite H.
Qed.

Lemma scan_ahead_skips (car : Car) (l : list Car) (acc : option Car * Dist) :
  (forall o, In o l -> _is_car_ahead car o = false) ->
  fold_left (scan_ahead car) l acc = acc.
Proof.
  induction l as [|a l IH]; simpl; intro H; [reflexivity|].
  assert (E : scan_ahead car acc a = acc)
    by (unfold scan_ahead; now rewrite (H a (or_introl eq_refl))).
  rewrite E. apply IH. intros o Ho. apply H. now right.
Qed.

Lemma scan_ahead_keeps_some (car : Car) (l : list Car) (a : Car) (d : Dist) :
  fst (fold_left (scan_ahead car) l (Some a, d)) <> None.
Proof.
  revert a d. induction l as [|b l IH]; simpl; intros a d; [discriminate|].
  unfold scan_ahead; simpl.
  destruct (_is_car_ahead car b); [|apply IH].
  destruct (dist_ltb (_get_distance car b) d); apply IH.
Qed.

Lemma find_car_ahead_None (car : Car) (l : list Car) :
  find_car_ahead car l = None <->
  (forall o, In o l -> _is_car_ahead car o = false).
Proof.
  unfold find_car_ahead. split.
  - induction l as [|a l IH]; simpl; intros H o Ho; [contradiction|].
    unfold scan_ahead in H at 2; simpl in H.
    destruct (_is_car_ahead car a) eqn:Ea.
    + rewrite (_is_car_ahead_distance _ _ Ea) in H. simpl in H.
      now apply scan_ahead_keeps_some in H.
    + destruct Ho as [<-|Ho]; [assumption | now apply IH].
  - intro H. now rewrite scan_ahead_skips.
Qed.

(** A car that is not ahead does not take part in the search. *)
Lemma find_car_ahead_filter (car : Car) (keep : Car -> bool) (l : list Car) :
  (forall o, In o l -> keep o = false -> _is_car_ahead car o = false) ->
  find_car_ahead car (filter keep l) = find_car_ahead car l.
Proof.
  unfold find_car_ahead. generalize (@None Car, Infinite).
  induction l as [|a l IH]; simpl; intros acc H; [reflexivity|].
  destruct (keep a) eqn:Ea; simpl.
  - apply IH. intros o Ho. apply H. now right.
  - assert (E : scan_ahead car acc a = acc)
      by (unfold scan_ahead; now rewrite (H a (or_introl eq_refl) Ea)).
    rewrite E. apply IH. intros o Ho. apply H. now right.
Qed.

(** The car found is in the list, ahead, and no car ahead is nearer. *)
Lemma scan_ahead_nearest (car : Car) (l : list Car) (acc : option Car * Dist) (a : Car) :
  fst (fold_left (scan_ahead car) l acc) = Some a ->
  scan_state_ok car acc ->
  _is_car_ahead car a = true /\
  (fst acc = Some a \/ In a l) /\
  (forall c, fst acc = Some c -> position a <= position c) /\
  (forall o, In o l -> _is_car_ahead car o = true -> position a <= position o).
Proof.
  revert acc. induction l as [|b l IH]; simpl; intros acc Hr Hok.
  - unfold scan_state_ok in Hok. rewrite Hr in Hok.
    split; [apply Hok|]. split; [now left|].
    split; [|contradiction].
    intros c Hc. rewrite Hr in Hc. injection Hc as <-. apply Qle_refl.
  - destruct (_is_car_ahead car b) eqn:Eb.
    + pose proof (_is_car_ahead_distance _ _ Eb) as Db.
      destruct (dist_ltb (_get_distance car b) (snd acc)) eqn:El.
      * assert (E : scan_ahead car acc b = (Some b, _get_distance car b))
          by (unfold scan_ahead; now rewrite Eb, El).
        rewrite E in Hr. apply IH in Hr; [|now split].
        destruct Hr as (Ha & Hin & Hacc & Hmin); simpl in *.
        pose proof (Hacc b eq_refl) as Hab.
        split; [assumption|]. split; [|split].
        -- right. destruct Hin as [Hin|Hin]; [left; congruence | now right].
        -- intros c Hc. unfold scan_state_ok in Hok. rewrite Hc in Hok.
           destruct Hok as [Hc' Hd].
           rewrite Hd, Db, (_is_car_ahead_distance _ _ Hc') in El.
           simpl in El. apply Qlt_bool_iff in El. lra.
        -- intros o [<-|Ho] Hah; [assumption | now apply Hmin].
      * assert (E : scan_ahead car acc b = acc)
          by (unfold scan_ahead; now rewrite Eb, El).
        rewrite E in Hr. apply IH in Hr; [|assumption].
        destruct Hr as (Ha & Hin & Hacc & Hmin).
        split; [assumption|]. split; [tauto|]. split; [assumption|].
        intros o [<-|Ho] Hah; [|now apply Hmin].
        unfold scan_state_ok in Hok.
        destruct (fst acc) as [c|] eqn:Ec.
        -- destruct Hok as [Hc' Hd]. specialize (Hacc c eq_refl).
           rewrite Hd, Db, (_is_car_ahead_distance _ _ Hc') in El.
           simpl in El. apply Qlt_bool_false_iff in El. lra.
        -- rewrite Hok, Db in El. discriminate.
    + assert (E : scan_ahead car acc b = acc)
        by (unfold scan_ahead; now rewrite Eb).
      rewrite E in Hr. apply IH in Hr; [|assumption].
      destruct Hr as (Ha & Hin & Hacc & Hmin).
      split; [assumption|]. split; [tauto|]. split; [assumption|].
      intros o [<-|Ho] Hah; [congruence | now apply Hmin].
Qed.

Lemma find_car_ahead_Some (car : Car) (l : list Car) (a : Car) :
  find_car_ahead car l = Some a ->
  In a l /\ _is_car_ahead car a = true /\
  (forall o, In o l -> _is_car_ahead car o = true -> position a <= position o).
Proof.
  intro H. apply scan_ahead_nearest in H; [|reflexivity].
  destruct H as (Ha & [Hin|Hin] & _ & Hmin); [discriminate|]. tauto.
Qed.

(** ** The sort is sorted, and stable under removal of cars *)

Lemma insert_by_position_head (c : Car) (l : list Car) :
  Forall (position_le c) l -> insert_by_position c l = c :: l.
Proof.
  destruct l as [|d r]; simpl; [reflexivity|]. intro H.
  apply Forall_inv in H. apply Qle_bool_iff in H. now rewrite H.
Qed.

Lemma insert_by_position_sorted (c : Car) (l : list Car) :
  StronglySorted position_le l ->
  StronglySorted position_le (insert_by_position c l).
Proof.
  induction 1 as [|d r Hs IH Hd]; simpl.
  - repeat constructor.
  - destruct (Qle_bool (position c) (position d)) eqn:E.
    + apply Qle_bool_iff in E. constructor; [now constructor|].
      constructor; [assumption|].
      eapply Forall_impl; [|exact Hd].
      unfold position_le. intros x Hx. lra.
    + apply Qle_bool_false_iff in E. constructor; [assumption|].
      eapply Permutation_Forall;
        [symmetry; apply insert_by_position_perm|].
      constructor; [|assumption]. unfold position_le. lra.
Qed.

Lemma sort_by_position_sorted (l : list Car) :
  StronglySorted position_le (sort_by_position l).
Proof.
  induction l as [|c r IH]; simpl; [constructor|].
  now apply insert_by_position_sorted.
Qed.

Lemma filter_insert_by_position (keep : Car -> bool) (c : Car) (l : list Car) :
  StronglySorted position_le l ->
  filter keep (insert_by_position c l) =
  if keep c then insert_by_position c (filter keep l) else filter keep l.
Proof.
  induction 1 as [|d r Hs IH Hd]; simpl.
  - now destruct (keep c).
  - destruct (Qle_bool (position c) (position d)) eqn:E; simpl.
    + destruct (keep c); [|reflexivity].
      symmetry. apply insert_by_position_head.
      apply Qle_bool_iff in E.
      assert (Hall : Forall (position_le c) (d :: r)).
      { constructor; [assumption|].
        eapply Forall_impl; [|exact Hd].
        unfold position_le. intros x Hx. lra. }
      rewrite Forall_forall in *. intros x Hx.
      apply Hall. change (In x (filter keep (d :: r))) in Hx.
      now apply filter_In in Hx.
    + rewrite IH. destruct (keep d), (keep c); simpl; now rewrite ?E.
Qed.

Lemma filter_sort_by_position (keep : Car -> bool) (l : list Car) :
  filter keep (sort_by_position l) = sort_by_position (filter keep l).
Proof.
  induction l as [|c r IH]; simpl; [reflexivity|].
  rewrite filter_insert_by_position by apply sort_by_position_sorted.
  rewrite IH. now destruct (keep c).
Qed.

Lemma filter_filter_swap (p q : Car -> bool) (l : list Car) :
  filter p (filter q l) = filter q (filter p l).
Proof.
  induction l as [|c r IH]; simpl; [reflexivity|].
  destruct (p c) eqn:Ep, (q c) eqn:Eq; simpl; rewrite ?Ep, ?Eq, IH; reflexivity.
Qed.

(** ** Cars level with the evaluated car *)

Lemma co_located_not_ahead (car o : Car) :
  co_located car o = true -> _is_car_ahead car o = false.
Proof.
  unfold co_located. rewrite andb_true_iff, Qeq_bool_iff. intros [_ H].
  apply _is_car_ahead_false. intros _. rewrite H. apply Qle_refl.
Qed.

Lemma filter_lane_without (keep : Car -> bool) (l : Lane) (cs : list Car) :
  (forall o, In o cs -> lane o = l -> keep o = true) ->
  filter (fun c => Lane_eqb (lane c) l) (filter keep cs) =
  filter (fun c => Lane_eqb (lane c) l) cs.
Proof.
  induction cs as [|c r IH]; simpl; intro H; [reflexivity|].
  assert (Hr : forall o, In o r -> lane o = l -> keep o = true)
    by (intros o Ho; apply H; now right).
  destruct (keep c) eqn:Ek; simpl.
  - now rewrite IH.
  - rewrite IH by assumption.
    destruct (Lane_eqb (lane c) l) eqn:El; [|reflexivity].
    apply Lane_eqb_eq in El. rewrite (H c (or_introl eq_refl) El) in Ek.
    discriminate.
Qed.

Lemma _get_cars_in_lane_without_other (self : HighwaySimulation) (car : Car) (l : Lane) :
  l <> lane car ->
  _get_cars_in_lane (without_co_located self car) l = _get_cars_in_lane self l.
Proof.
  intro Hl. unfold _get_cars_in_lane, without_co_located; simpl.
  rewrite filter_lane_without; [reflexivity|].
  intros o _ Ho. unfold co_located.
  destruct (Lane_eqb (lane o) (lane car)) eqn:E; [|reflexivity].
  apply Lane_eqb_eq in E. congruence.
Qed.

Lemma _get_cars_in_lane_without_same (self : HighwaySimulation) (car : Car) :
  _get_cars_in_lane (without_co_located self car) (lane car) =
  filter (fun o => negb (co_located car o)) (_get_cars_in_lane self (lane car)).
Proof.
  unfold _get_cars_in_lane, without_co_located; simpl.
  now rewrite filter_sort_by_position, filter_filter_swap.
Qed.

Lemma find_car_ahead_without (self : HighwaySimulation) (car : Car) :
  find_car_ahead car (_get_cars_in_lane (without_co_located self car) (lane car)) =
  find_car_ahead car (_get_cars_in_lane self (lane car)).
Proof.
  rewrite _get_cars_in_lane_without_same. apply find_car_ahead_filter.
  intros o _ Ho. apply negb_false_iff in Ho. now apply co_located_not_ahead.
Qed.

Lemma _can_pass_on_left_without (self : HighwaySimulation) (car : Car) :
  _can_pass_on_left (without_co_located self car) car = _can_pass_on_left self car.
Proof.
  unfold _can_pass_on_left.
  destruct (Lane_eqb (lane car) LEFT) eqn:E; [reflexivity|].
  rewrite _get_cars_in_lane_without_other; [reflexivity|].
  destruct (lane car); simpl; discriminate.
Qed.

Lemma nobody_ahead_None (self : HighwaySimulation) (car : Car) :
  (forall o, In o (cars self) -> lane o = lane car -> position o <= position car) ->
  find_car_ahead car (_get_cars_in_lane self (lane car)) = None.
Proof.
  intro H. apply find_car_ahead_None. intros o Ho.
  apply _get_cars_in_lane_In in Ho as [Ho Hl].
  apply _is_car_ahead_false. intros _. now apply H.
Qed.

(** C10: the relation "ahead" is strict in position.  Two cars of one lane
    at equal positions are not ahead of one another; [is_blocked] and the
    speed update give the same result with the co-located cars taken out of
    the collection; and when no car of the lane is at a strictly greater
    position, [is_blocked] is false and the speed update accelerates. *)
Theorem ahead_is_strict_in_position (self : HighwaySimulation) (car other : Car) :
  (lane other = lane car -> position other == position car ->
   _is_car_ahead car other = false /\ _is_car_ahead other car = false) /\
  is_blocked self car = is_blocked (without_co_located self car) car /\
  _update_car_speed self car = _update_car_speed (without_co_located self car) car /\
  ((forall o, In o (cars self) -> lane o = lane car -> position o <= position car) ->
   is_blocked self car = false /\
   speed (_update_car_speed self car) =
   Qmax 0 (Qmin (speed car + 2 * time_step self) (max_speed car))).
Proof.
  split; [|split; [|split]].
  - intros Hl Hp. split; apply _is_car_ahead_false; intros _; rewrite Hp;
      apply Qle_refl.
  - unfold is_blocked.
    now rewrite find_car_ahead_without, _can_pass_on_left_without.
  - unfold _update_car_speed. now rewrite find_car_ahead_without.
  - intro H. apply nobody_ahead_None in H.
    unfold is_blocked, _update_car_speed. now rewrite H.
Qed.

(** C10, at a concrete input: the twins of [sim_twins]. *)
Lemma ahead_is_strict_in_position_witness :
  (_is_car_ahead twin_a twin_b = false /\ _is_car_ahead twin_b twin_a = false) /\
  is_blocked sim_twins twin_a = false /\
  speed (_update_car_speed sim_twins twin_a) =
  Qmax 0 (Qmin (speed twin_a + 2 * time_step sim_twins) (max_speed twin_a)).
Proof.
  destruct (ahead_is_strict_in_position sim_twins twin_a twin_b)
    as (H1 & _ & _ & H4).
  split.
  - apply H1; reflexivity.
  - apply H4. intros o [<-|[<-|[]]] _; unfold Qle; simpl; lia.
Defined.

(** ** The lane-change safety judgment *)

(** What the loop of the two checks computes on a lane other than the
    car's own: only the cars strictly behind are held to the gap. *)
Lemma target_lane_clear_behind_only (d : Q) (car : Car) (l : list Car) :
  (forall o, In o l -> lane o <> lane car) ->
  target_lane_clear d car l = true <->
  (forall o, In o l -> position o < position car ->
             d <= position car - position o).
Proof.
  induction l as [|b l IH]; simpl; intro Hl.
  - split; [contradiction | reflexivity].
  - assert (Eb : _is_car_ahead car b = false).
    { apply _is_car_ahead_false. intro E. now apply Hl in E; [|left]. }
    rewrite Eb. unfold _get_distance.
    destruct (Qlt_bool (position b) (position car)) eqn:Ep; simpl.
    + apply Qlt_bool_iff in Ep.
      destruct (Qlt_bool (position car - position b) d) eqn:Ed.
      * apply Qlt_bool_iff in Ed. split; [discriminate|]. intro H.
        specialize (H b (or_introl eq_refl) Ep). lra.
      * apply Qlt_bool_false_iff in Ed. rewrite IH by (intros; apply Hl; now right).
        split; intros H o.
        -- intros [<-|Ho]; [trivial | now apply H].
        -- intro Ho. apply H. now right.
    + apply Qlt_bool_false_iff in Ep. rewrite IH by (intros; apply Hl; now right).
      split; intros H o.
      * intros [<-|Ho] Hlt; [lra | now apply H].
      * intro Ho. apply H. now right.
Qed.

Lemma _should_move_to_right_behind_only (self : HighwaySimulation) (car : Car) :
  _should_move_to_right self car = true <->
  lane car <> RIGHT /\
  (forall o, In o (cars self) ->
             Lane_value (lane o) = (Lane_value (lane car) - 1)%Z ->
             position o < position car -> 50 <= position car - position o).
Proof.
  unfold _should_move_to_right.
  destruct (Lane_eqb (lane car) RIGHT) eqn:E.
  - apply Lane_eqb_eq in E. split; [discriminate | tauto].
  - apply Lane_eqb_neq in E. rewrite target_lane_clear_behind_only.
    + split.
      * intro H. split; [assumption|]. intros o Ho Hv. apply H.
        apply _get_cars_in_lane_In. split; [assumption|].
        rewrite <- Hv. symmetry. apply Lane_of_value.
      * intros [_ H] o Ho. apply _get_cars_in_lane_In in Ho as [Ho Hv].
        apply H; [assumption|]. rewrite Hv.
        destruct (lane car); try reflexivity; congruence.
    + intros o Ho. apply _get_cars_in_lane_In in Ho as [_ ->].
      destruct (lane car); try congruence; discriminate.
Qed.

Lemma _can_pass_on_left_behind_only (self : HighwaySimulation) (car : Car) :
  _can_pass_on_left self car = true <->
  lane car <> LEFT /\
  (forall o, In o (cars self) ->
             Lane_value (lane o) = (Lane_value (lane car) + 1)%Z ->
             position o < position car -> 50 <= position car - position o).
Proof.
  unfold _can_pass_on_left.
  destruct (Lane_eqb (lane car) LEFT) eqn:E.
  - apply Lane_eqb_eq in E. split; [discriminate | tauto].
  - apply Lane_eqb_neq in E. rewrite target_lane_clear_behind_only.
    + split.
      * intro H. split; [assumption|]. intros o Ho Hv. apply H.
        apply _get_cars_in_lane_In. split; [assumption|].
        rewrite <- Hv. symmetry. apply Lane_of_value.
      * intros [_ H] o Ho. apply _get_cars_in_lane_In in Ho as [Ho Hv].
        apply H; [assumption|]. rewrite Hv.
        destruct (lane car); try reflexivity; congruence.
    + intros o Ho. apply _get_cars_in_lane_In in Ho as [_ ->].
      destruct (lane car); try congruence; discriminate.
Qed.

(** C1: the safety judgment at a target lane holding a car strictly ahead
    within 50 m.  With a car 10 m ahead in the right lane and one 10 m ahead
    in the left lane, both checks judge their target lane safe, and the lane
    decision moves the car into the right lane. *)
Theorem safety_judgment_misses_cars_ahead :
  In car_right_ahead (_get_cars_in_lane sim_close_ahead RIGHT) /\
  In car_left_ahead (_get_cars_in_lane sim_close_ahead LEFT) /\
  position car_between < position car_right_ahead /\
  position car_right_ahead - position car_between < 50 /\
  position car_left_ahead - position car_between < 50 /\
  _should_move_to_right sim_close_ahead car_between = true /\
  _can_pass_on_left sim_close_ahead car_between = true /\
  lane (fst (_update_car_lane sim_close_ahead car_between zero_rng)) = RIGHT.
Proof.
  repeat split; try reflexivity; simpl; auto.
Qed.

(** ** The speed update *)

Lemma _update_car_speed_nonneg (self : HighwaySimulation) (car : Car) :
  0 <= speed (_update_car_speed self car).
Proof. unfold _update_car_speed; simpl. apply Q.le_max_l. Qed.

Lemma _update_car_speed_frame (self : HighwaySimulation) (car : Car) :
  position (_update_car_speed self car) = position car /\
  lane (_update_car_speed self car) = lane car /\
  max_speed (_update_car_speed self car) = max_speed car /\
  follows_bad_practice (_update_car_speed self car) = follows_bad_practice car.
Proof. unfold _update_car_speed; simpl. tauto. Qed.

(** C2: the speed update at a slow car following a fast one.  Both cars
    start within their own [max_speed].  100 m behind the leader the update
    copies the leader's speed, 50 m behind it takes the leader's speed minus
    5; either way the follower ends above its own [max_speed], also at the
    end of a whole [step()]. *)
Theorem speed_update_exceeds_max_speed :
  (0 <= speed slow_follower /\ speed slow_follower <= max_speed slow_follower) /\
  (0 <= speed fast_leader /\ speed fast_leader <= max_speed fast_leader) /\
  speed (_update_car_speed sim_follow slow_follower) = 125 /\
  speed (_update_car_speed sim_follow_near slow_follower) = 120 /\
  max_speed (_update_car_speed sim_follow slow_follower) = 90 /\
  existsb (fun c => Qlt_bool (max_speed c) (speed c))
          (cars (fst (step sim_follow zero_rng))) = true /\
  existsb (fun c => Qlt_bool (max_speed c) (speed c))
          (cars (fst (step sim_follow_near zero_rng))) = true.
Proof.
  repeat split; try reflexivity; vm_compute; discriminate.
Qed.

(** ** Fields a tick leaves alone *)

Lemma spawn_attempts_frame (n : nat) (self : HighwaySimulation) (g : Rng) :
  num_cars (fst (spawn_attempts n self g)) = num_cars self /\
  highway_length (fst (spawn_attempts n self g)) = highway_length self /\
  time_step (fst (spawn_attempts n self g)) = time_step self /\
  spawn_probability (fst (spawn_attempts n self g)) = spawn_probability self /\
  traffic_jam_detected (fst (spawn_attempts n self g)) = traffic_jam_detected self.
Proof.
  revert self g. induction n as [|n IH]; intros self g;
    cbn [spawn_attempts]; [simpl; tauto|].
  destruct (random_random g) as [u g1].
  destruct (Qlt_bool u (spawn_probability self)); [|apply IH].
  destruct (random_randint 0 2 g1) as [v g2].
  destruct (random_uniform 0 20 g2) as [p g3].
  destruct (_has_space_for_spawn self p (Lane_of v) 30); [|apply IH].
  destruct (_create_car self (Some p) (Some (Lane_of v)) g3) as [c g4].
  apply (IH (set_cars self (cars self ++ [c])) g4).
Qed.

Lemma step_frame (self : HighwaySimulation) (g : Rng) :
  num_cars (fst (step self g)) = num_cars self /\
  highway_length (fst (step self g)) = highway_length self /\
  time_step (fst (step self g)) = time_step self /\
  spawn_probability (fst (step self g)) = spawn_probability self.
Proof.
  unfold step. destruct (moved_cars self g) as [l3 g1].
  unfold _spawn_new_cars_if_needed.
  match goal with |- context [spawn_attempts ?n ?s ?r] =>
    pose proof (spawn_attempts_frame n s r) as H;
    destruct (spawn_attempts n s r) as [self2 g2] end.
  simpl in H. destruct H as (H1 & H2 & H3 & H4 & _).
  destruct (jam_found _); simpl; tauto.
Qed.

(** The flag is sticky: [step()] only ever sets it. *)
Lemma step_keeps_jam_flag (self : HighwaySimulation) (g : Rng) :
  traffic_jam_detected self = true ->
  traffic_jam_detected (fst (step self g)) = true.
Proof.
  intro Hf. unfold step. destruct (moved_cars self g) as [l3 g1].
  unfold _spawn_new_cars_if_needed.
  match goal with |- context [spawn_attempts ?n ?s ?r] =>
    pose proof (spawn_attempts_frame n s r) as H;
    destruct (spawn_attempts n s r) as [self2 g2] end.
  simpl in H. destruct H as (_ & _ & _ & _ & H).
  destruct (jam_found _); simpl; congruence.
Qed.

Lemma steps_keep_jam_flag (k : nat) (self : HighwaySimulation) (g : Rng) :
  traffic_jam_detected self = true ->
  traffic_jam_detected (fst (steps k self g)) = true.
Proof.
  revert self g. induction k as [|k IH]; intros self g Hf; simpl; [assumption|].
  pose proof (step_keeps_jam_flag self g Hf) as H.
  destruct (step self g) as [self' g']. now apply IH.
Qed.

(** ** Runs *)

Lemma steps_succ (k : nat) (self : HighwaySimulation) (g : Rng) :
  steps (S k) self g =
  step (fst (steps k self g)) (snd (steps k self g)).
Proof.
  revert self g. induction k as [|k IH]; intros self g.
  - simpl. now destruct (step self g).
  - change (steps (S (S k)) self g)
      with (let (s', g') := step self g in steps (S k) s' g').
    change (steps (S k) self g)
      with (let (s', g') := step self g in steps k s' g').
    destruct (step self g) as [s' g']. apply IH.
Qed.

(** No tick of index at most 100 returns: the loop runs on. *)
Lemma run_loop_warm_up (n : nat) (i : Z) (self : HighwaySimulation) (g : Rng) :
  (i + Z.of_nat n <= 101)%Z ->
  run_loop n i self g = (false, fst (steps n self g), snd (steps n self g)).
Proof.
  revert i self g. induction n as [|n IH]; intros i self g Hi; simpl.
  - reflexivity.
  - destruct (step self g) as [s' g'].
    assert (E : (100 <? i)%Z = false) by (apply Z.ltb_ge; lia).
    rewrite E; simpl. apply IH. lia.
Qed.

Lemma run_loop_split (n m : nat) (i : Z) (self : HighwaySimulation) (g : Rng) :
  (i + Z.of_nat n <= 101)%Z ->
  run_loop (n + m) i self g =
  run_loop m (i + Z.of_nat n) (fst (steps n self g)) (snd (steps n self g)).
Proof.
  revert i self g. induction n as [|n IH]; intros i self g Hi.
  - simpl. now rewrite Z.add_0_r.
  - change (run_loop (S n + m) i self g)
      with (let (self', g') := step self g in
            if (100 <? i)%Z && traffic_jam_detected self'
            then (true, self', g')
            else run_loop (n + m) (i + 1)%Z self' g').
    change (steps (S n) self g)
      with (let (s', g') := step self g in steps n s' g').
    destruct (step self g) as [s' g'].
    assert (E : (100 <? i)%Z = false) by (apply Z.ltb_ge; lia).
    rewrite E; simpl andb; cbv iota.
    rewrite IH by lia. f_equal. lia.
Qed.

(** A run of at most 101 ticks executes them all and returns false. *)
Lemma run_short (self : HighwaySimulation) (max_steps : Z) (g : Rng) :
  (max_steps <= 101)%Z ->
  fst (fst (run self max_steps g)) = false.
Proof.
  intro H. unfold run. rewrite run_loop_warm_up; [reflexivity|]. lia.
Qed.

(** A flag set by any of the first 102 ticks makes a run of 102 ticks or
    more return true, at the tick of index 101. *)
Lemma run_reports_latched_flag (self : HighwaySimulation) (max_steps : Z)
      (g : Rng) (k : nat) :
  (102 <= max_steps)%Z -> (k <= 102)%nat ->
  traffic_jam_detected
    (fst (steps k (set_traffic_jam_detected self false) g)) = true ->
  run self max_steps g =
  (true, fst (steps 102 (set_traffic_jam_detected self false) g),
         snd (steps 102 (set_traffic_jam_detected self false) g)).
Proof.
  intros Hm Hk Hf. unfold run.
  set (s0 := set_traffic_jam_detected self false) in *.
  replace (Z.to_nat max_steps) with (101 + S (Z.to_nat max_steps - 102))%nat by lia.
  rewrite run_loop_split by lia.
  assert (H102 : traffic_jam_detected (fst (steps 102 s0 g)) = true).
  { replace 102%nat with ((102 - k) + k)%nat by lia.
    clear Hm. revert Hf. generalize (102 - k)%nat as d. intros d Hf.
    induction d as [|d IH]; [assumption|].
    change (S d + k)%nat with (S (d + k)). rewrite steps_succ.
    now apply step_keeps_jam_flag. }
  rewrite steps_succ in H102.
  change (run_loop (S (Z.to_nat max_steps - 102)) (0 + Z.of_nat 101)
                   (fst (steps 101 s0 g)) (snd (steps 101 s0 g)))
    with (let (self', g') := step (fst (steps 101 s0 g)) (snd (steps 101 s0 g)) in
          if (100 <? 0 + Z.of_nat 101)%Z && traffic_jam_detected self'
          then (true, self', g')
          else run_loop (Z.to_nat max_steps - 102) (0 + Z.of_nat 101 + 1)%Z self' g').
  rewrite (steps_succ 101).
  destruct (step (fst (steps 101 s0 g)) (snd (steps 101 s0 g))) as [s' g'].
  simpl in H102. rewrite H102. reflexivity.
Qed.

(** C3: a run whose only jam arises in the warm-up.  The four cars of
    [sim_queue] meet the jam condition at the end of the tick of index 0,
    which sets the flag; no later tick meets it and the segment is empty
    from the fourth tick on.  [run(101)] returns false and [run(102)]
    returns true. *)
Theorem run_reports_warm_up_jam :
  jam_found (sim_queue_after 1) = true /\
  traffic_jam_detected (sim_queue_after 1) = true /\
  forallb (fun k => negb (jam_found (sim_queue_after k))) (seq 2 101) = true /\
  forallb (fun k => (length (cars (sim_queue_after k)) =? 0)%nat) (seq 4 99) = true /\
  fst (fst (run sim_queue 101 zero_rng)) = false /\
  fst (fst (run sim_queue 102 zero_rng)) = true.
Proof.
  repeat split; vm_compute; reflexivity.
Qed.

(** ** The lane policy *)

Lemma Lane_of_right (l : Lane) :
  l <> RIGHT -> Lane_of (Lane_value l - 1) = lane_right_of l.
Proof. destruct l; intro H; [congruence | reflexivity | reflexivity]. Qed.

Lemma Lane_of_left (l : Lane) :
  l <> LEFT -> Lane_of (Lane_value l + 1) = lane_left_of l.
Proof. destruct l; intro H; [reflexivity | reflexivity | congruence]. Qed.

Lemma _should_move_to_right_not_right (self : HighwaySimulation) (car : Car) :
  _should_move_to_right self car = true -> lane car <> RIGHT.
Proof.
  unfold _should_move_to_right.
  destruct (Lane_eqb (lane car) RIGHT) eqn:E; [discriminate|].
  intros _. now apply Lane_eqb_neq.
Qed.

Lemma _can_pass_on_left_not_left (self : HighwaySimulation) (car : Car) :
  _can_pass_on_left self car = true -> lane car <> LEFT.
Proof.
  unfold _can_pass_on_left.
  destruct (Lane_eqb (lane car) LEFT) eqn:E; [discriminate|].
  intros _. now apply Lane_eqb_neq.
Qed.

Lemma return_right_applies_code (self : HighwaySimulation) (car : Car) :
  negb (follows_bad_practice car) && _should_move_to_right self car =
  return_right_applies self car.
Proof. reflexivity. Qed.

Lemma return_right_applies_late (self : HighwaySimulation) (car : Car) :
  negb (follows_bad_practice car) && negb (Lane_eqb (lane car) RIGHT)
  && _should_move_to_right self car = return_right_applies self car.
Proof.
  unfold return_right_applies, _should_move_to_right.
  destruct (negb (follows_bad_practice car)); [|reflexivity].
  now destruct (Lane_eqb (lane car) RIGHT).
Qed.

Lemma return_right_applies_not_right (self : HighwaySimulation) (car : Car) :
  return_right_applies self car = true -> lane car <> RIGHT.
Proof.
  unfold return_right_applies. intro Hr.
  apply andb_true_iff in Hr as [_ Hr].
  now apply _should_move_to_right_not_right in Hr.
Qed.

Lemma _update_car_lane_late (self : HighwaySimulation) (car : Car) (g : Rng) :
  return_right_applies self car = false ->
  (let cars_in_same_lane := _get_cars_in_lane self (lane car) in
   let car_ahead := find_car_ahead car cars_in_same_lane in
   let passing :=
     match car_ahead with
     | Some a => Qlt_bool (speed a) (speed car) && _can_pass_on_left self car
     | None => false
     end in
   if passing
   then (set_lane car (Lane_of (Lane_value (lane car) + 1)), g)
   else if negb (follows_bad_practice car) && negb (Lane_eqb (lane car) RIGHT)
           && _should_move_to_right self car
   then (set_lane car (Lane_of (Lane_value (lane car) - 1)), g)
   else (car, g))
  = (apply_lane_rule car (late_rules self car), g).
Proof.
  intro Hr. cbv zeta. rewrite return_right_applies_late, Hr.
  unfold late_rules. rewrite Hr.
  assert (E : match find_car_ahead car (_get_cars_in_lane self (lane car)) with
              | Some a => Qlt_bool (speed a) (speed car)
                          && _can_pass_on_left self car
              | None => false
              end = overtake_applies self car).
  { unfold overtake_applies, slower_car_ahead.
    now destruct (find_car_ahead car (_get_cars_in_lane self (lane car))). }
  rewrite E. destruct (overtake_applies self car) eqn:Ho; [|reflexivity].
  simpl. rewrite Lane_of_left; [reflexivity|].
  unfold overtake_applies in Ho. apply andb_true_iff in Ho as [_ Ho].
  now apply _can_pass_on_left_not_left in Ho.
Qed.

(** [_update_car_lane] takes the branch that [lane_rule_fired] names. *)
Lemma _update_car_lane_by_rule (self : HighwaySimulation) (car : Car) (g : Rng) :
  _update_car_lane self car g =
  (apply_lane_rule car (fst (lane_rule_fired self car g)),
   snd (lane_rule_fired self car g)).
Proof.
  unfold _update_car_lane, lane_rule_fired.
  rewrite return_right_applies_code.
  destruct (return_right_applies self car) eqn:Hr.
  - simpl. rewrite Lane_of_right; [reflexivity|].
    now apply return_right_applies_not_right in Hr.
  - destruct (follows_bad_practice car && Lane_eqb (lane car) MIDDLE).
    + destruct (random_random g) as [u g'].
      destruct (Qlt_bool u (7 # 10)); [reflexivity|].
      exact (_update_car_lane_late self car g' Hr).
    + exact (_update_car_lane_late self car g Hr).
Qed.

(** Rule 4 repeats the test of rule 1 on an unchanged car and collection:
    it is never the rule that fires. *)
Lemma late_return_right_never_fires
      (self : HighwaySimulation) (car : Car) (g : Rng) :
  fst (lane_rule_fired self car g) <> LateReturnRight.
Proof.
  unfold lane_rule_fired, late_rules.
  destruct (return_right_applies self car) eqn:Hr; [discriminate|].
  destruct (follows_bad_practice car && Lane_eqb (lane car) MIDDLE).
  - destruct (random_random g) as [u g'].
    destruct (Qlt_bool u (7 # 10)); [discriminate|].
    simpl. destruct (overtake_applies self car); discriminate.
  - simpl. destruct (overtake_applies self car); discriminate.
Qed.

(** The car that rule 3 compares with is the nearest car ahead in the
    lane. *)
Lemma slower_car_ahead_nearest (self : HighwaySimulation) (car : Car) :
  slower_car_ahead self car = true ->
  exists a,
    In a (cars self) /\ lane a = lane car /\ position car < position a /\
    speed a < speed car /\
    (forall o, In o (cars self) -> lane o = lane car ->
               position car < position o -> position a <= position o).
Proof.
  unfold slower_car_ahead.
  destruct (find_car_ahead car (_get_cars_in_lane self (lane car))) as [a|] eqn:E;
    [|discriminate].
  intro Hs. apply Qlt_bool_iff in Hs.
  apply find_car_ahead_Some in E as (Hin & Ha & Hmin).
  apply _get_cars_in_lane_In in Hin as [Hin Hl].
  apply _is_car_ahead_true in Ha as [_ Ha].
  exists a. repeat split; try assumption.
  intros o Ho Hlo Hpo. apply Hmin.
  - apply _get_cars_in_lane_In. now split.
  - apply _is_car_ahead_true. now split.
Qed.

Lemma _update_car_lane_frame (self : HighwaySimulation) (car : Car) (g : Rng) :
  position (fst (_update_car_lane self car g)) = position car /\
  speed (fst (_update_car_lane self car g)) = speed car /\
  max_speed (fst (_update_car_lane self car g)) = max_speed car /\
  follows_bad_practice (fst (_update_car_lane self car g)) = follows_bad_practice car.
Proof.
  unfold _update_car_lane.
  destruct (negb (follows_bad_practice car) && _should_move_to_right self car);
    [simpl; tauto|].
  destruct (follows_bad_practice car && Lane_eqb (lane car) MIDDLE).
  - destruct (random_random g) as [u g'].
    destruct (Qlt_bool u (7 # 10)); [simpl; tauto|]. cbv zeta.
    repeat match goal with
           | |- context [if ?b then _ else _] => destruct b
           end; simpl; tauto.
  - cbv zeta.
    repeat match goal with
           | |- context [if ?b then _ else _] => destruct b
           end; simpl; tauto.
Qed.

(** *** The specified rules against the code *)

Lemma keeps_gap_true (car o : Car) :
  keeps_gap car o = true <->
  (position car < position o -> 50 <= position o - position car) /\
  (position o < position car -> 50 <= position car - position o).
Proof.
  unfold keeps_gap, _get_distance.
  destruct (Qlt_bool (position car) (position o)) eqn:E; simpl.
  - apply Qlt_bool_iff in E. rewrite negb_true_iff, Qlt_bool_false_iff.
    split; [intro H; split; [tauto | intro; lra] | tauto].
  - apply Qlt_bool_false_iff in E.
    destruct (Qlt_bool (position o) (position car)) eqn:E'; simpl.
    + apply Qlt_bool_iff in E'. rewrite negb_true_iff, Qlt_bool_false_iff.
      split; [intro H; split; [intro; lra | tauto] | tauto].
    + apply Qlt_bool_false_iff in E'.
      split; [intros _; split; intro; lra | reflexivity].
Qed.

(** The engine's judgment of a lane is the specified one as long as no car
    of that lane is less than 50 m ahead. *)
Lemma engine_judgment_as_specified (self : HighwaySimulation) (car : Car)
      (target : Lane) :
  target <> lane car ->
  (forall o, In o (cars self) -> lane o = target ->
             position car < position o -> 50 <= position o - position car) ->
  target_lane_clear 50 car (_get_cars_in_lane self target) =
  safe_as_specified self car target.
Proof.
  intros Ht Hahead.
  assert (Hiff : target_lane_clear 50 car (_get_cars_in_lane self target) = true
                 <-> safe_as_specified self car target = true).
  { rewrite target_lane_clear_behind_only.
    - unfold safe_as_specified. rewrite forallb_forall. split.
      + intros H o Ho. apply filter_In in Ho as [Ho Hl].
        apply Lane_eqb_eq in Hl. apply keeps_gap_true. split.
        * now apply Hahead.
        * apply H. apply _get_cars_in_lane_In. now split.
      + intros H o Ho. apply _get_cars_in_lane_In in Ho as [Ho Hl].
        apply (keeps_gap_true car o). apply H, filter_In.
        split; [assumption | now apply Lane_eqb_eq].
    - intros o Ho. apply _get_cars_in_lane_In in Ho as [_ ->]. exact Ht. }
  destruct (target_lane_clear 50 car (_get_cars_in_lane self target)),
    (safe_as_specified self car target); try reflexivity;
    destruct Hiff as [H1 H2]; [now rewrite H1 | now rewrite H2].
Qed.

(** Where the two judgments agree on the neighbouring lanes, the code
    applies the specified rules in their order. *)
Lemma lane_decision_follows_specified_rules
      (self : HighwaySimulation) (car : Car) (g : Rng) :
  (forall o, In o (cars self) -> lane o <> lane car ->
             position car < position o -> 50 <= position o - position car) ->
  _update_car_lane self car g =
  (apply_lane_rule car (fst (specified_lane_rule self car g)),
   snd (specified_lane_rule self car g)).
Proof.
  intro Hahead.
  assert (Hr : specified_return_right self car = return_right_applies self car).
  { unfold specified_return_right, return_right_applies, _should_move_to_right.
    rewrite <- andb_assoc. f_equal.
    destruct (Lane_eqb (lane car) RIGHT) eqn:E; [reflexivity|].
    apply Lane_eqb_neq in E. simpl.
    rewrite Lane_of_right by assumption. symmetry.
    apply engine_judgment_as_specified.
    - destruct (lane car); simpl; congruence.
    - intros o Ho Hl. apply Hahead; [assumption|]. rewrite Hl.
      destruct (lane car); simpl; congruence. }
  assert (Ho : specified_overtake self car = overtake_applies self car).
  { unfold specified_overtake, overtake_applies, _can_pass_on_left.
    rewrite <- andb_assoc. f_equal.
    destruct (Lane_eqb (lane car) LEFT) eqn:E; [reflexivity|].
    apply Lane_eqb_neq in E. simpl.
    rewrite Lane_of_left by assumption. symmetry.
    apply engine_judgment_as_specified.
    - destruct (lane car); simpl; congruence.
    - intros o Ho Hl. apply Hahead; [assumption|]. rewrite Hl.
      destruct (lane car); simpl; congruence. }
  rewrite _update_car_lane_by_rule.
  unfold specified_lane_rule, specified_late_rules, lane_rule_fired, late_rules.
  now rewrite Hr, Ho.
Qed.

(** C4: the lane decision against the four rules as specified, at a car
    with another car 10 m ahead of it in the lane it would enter.  For
    [car_between] the specified rules keep the lane (rule 1 fails, the right
    lane is not safe) and the code moves the car right; for [overtaker]
    they keep the lane (rule 3 fails, the middle lane is not safe) and the
    code moves the car left. *)
Theorem lane_decision_departs_from_specified_rules :
  safe_as_specified sim_close_ahead car_between RIGHT = false /\
  fst (specified_lane_rule sim_close_ahead car_between zero_rng) = KeepLane /\
  fst (lane_rule_fired sim_close_ahead car_between zero_rng) = ReturnRight /\
  lane (fst (_update_car_lane sim_close_ahead car_between zero_rng)) = RIGHT /\
  slower_car_ahead sim_overtake overtaker = true /\
  safe_as_specified sim_overtake overtaker MIDDLE = false /\
  fst (specified_lane_rule sim_overtake overtaker zero_rng) = KeepLane /\
  fst (lane_rule_fired sim_overtake overtaker zero_rng) = OvertakeLeft /\
  lane (fst (_update_car_lane sim_overtake overtaker zero_rng)) = MIDDLE.
Proof.
  repeat split; vm_compute; reflexivity.
Qed.

(** ** The passes of a tick *)

Lemma Forall2_compose {A : Type} (R S T : A -> A -> Prop) :
  (forall a b c, R a b -> S b c -> T a c) ->
  forall l1 l2 l3, Forall2 R l1 l2 -> Forall2 S l2 l3 -> Forall2 T l1 l3.
Proof.
  intros H l1 l2 l3 H12. revert l3.
  induction H12 as [|a b l1 l2 Hab _ IH]; intros l3 H23;
    inversion H23; subst; constructor; eauto.
Qed.

Lemma Forall2_map_r {A : Type} (f : A -> A) (l : list A) :
  Forall2 (fun a b => b = f a) l (map f l).
Proof. induction l; simpl; constructor; auto. Qed.

Lemma lane_pass_Forall2 (R : Car -> Car -> Prop) (self : HighwaySimulation) :
  (forall s c g, R c (fst (_update_car_lane s c g))) ->
  forall todo done0 done g,
    Forall2 R done0 done ->
    Forall2 R (done0 ++ todo) (fst (lane_pass self done todo g)).
Proof.
  intros HR. induction todo as [|c rest IH]; intros done0 done g Hd;
    cbn [lane_pass].
  - now rewrite app_nil_r.
  - pose proof (HR (set_cars self (done ++ c :: rest)) c g) as Hc.
    destruct (_update_car_lane (set_cars self (done ++ c :: rest)) c g)
      as [c' g'].
    replace (done0 ++ c :: rest) with ((done0 ++ [c]) ++ rest)
      by (now rewrite <- app_assoc).
    apply IH. apply Forall2_app; [assumption|]. now repeat constructor.
Qed.

Lemma speed_pass_Forall2 (R : Car -> Car -> Prop) (self : HighwaySimulation) :
  (forall s c, time_step s = time_step self -> R c (_update_car_speed s c)) ->
  forall todo done0 done,
    Forall2 R done0 done ->
    Forall2 R (done0 ++ todo) (speed_pass self done todo).
Proof.
  intros HR. induction todo as [|c rest IH]; intros done0 done Hd;
    cbn [speed_pass].
  - now rewrite app_nil_r.
  - replace (done0 ++ c :: rest) with ((done0 ++ [c]) ++ rest)
      by (now rewrite <- app_assoc).
    apply IH. apply Forall2_app; [assumption|].
    repeat constructor. now apply HR.
Qed.

Lemma moved_cars_tick_moves (self : HighwaySimulation) (g : Rng) :
  Forall2 (tick_moves self) (cars self) (fst (moved_cars self g)).
Proof.
  unfold moved_cars.
  pose proof (lane_pass_Forall2
                (fun c c' => position c' = position c /\
                             max_speed c' = max_speed c /\
                             follows_bad_practice c' = follows_bad_practice c)
                self) as H1.
  specialize (H1 (fun s c g0 =>
                    let '(conj a (conj _ b)) := _update_car_lane_frame s c g0 in
                    conj a b)
                 (cars self) [] [] g (Forall2_nil _)).
  destruct (lane_pass self [] (cars self) g) as [l1 g1]. simpl in *.
  pose proof (speed_pass_Forall2
                (fun c c' => 0 <= speed c' /\ position c' = position c /\
                             max_speed c' = max_speed c /\
                             follows_bad_practice c' = follows_bad_practice c)
                self) as H2.
  specialize (H2 (fun s c _ =>
                    let '(conj a (conj _ b)) := _update_car_speed_frame s c in
                    conj (_update_car_speed_nonneg s c) (conj a b))
                 l1 [] [] (Forall2_nil _)).
  simpl in H2.
  pose proof (Forall2_map_r (_update_car_position self) (speed_pass self [] l1))
    as H3.
  assert (H23 : Forall2 (fun b c' => 0 <= speed c' /\
                          position c' = position b
                                        + speed c' * time_step self * (1000 / 3600) /\
                          max_speed c' = max_speed b /\
                          follows_bad_practice c' = follows_bad_practice b)
                       l1 (position_pass self (speed_pass self [] l1))).
  { refine (Forall2_compose _ _ _ _ _ _ _ H2 H3).
    intros a b c (Hs & Hp & Hm & Hb) ->.
    unfold _update_car_position; simpl. rewrite Hp. tauto. }
  refine (Forall2_compose _ _ _ _ _ _ _ H1 H23).
  intros a b c (Hp & Hm & Hb) (Hs & Hp' & Hm' & Hb').
  unfold tick_moves. repeat split; congruence.
Qed.

Lemma moved_cars_length (self : HighwaySimulation) (g : Rng) :
  length (fst (moved_cars self g)) = length (cars self).
Proof.
  symmetry. eapply Forall2_length, moved_cars_tick_moves.
Qed.

(** ** Spawning adds at most one car per attempt *)

Lemma spawn_attempts_appends (n : nat) (self : HighwaySimulation) (g : Rng) :
  exists new,
    cars (fst (spawn_attempts n self g)) = cars self ++ new /\
    (length new <= n)%nat.
Proof.
  revert self g. induction n as [|n IH]; intros self g; cbn [spawn_attempts].
  - exists []. simpl. now rewrite app_nil_r.
  - assert (Hskip : forall g', exists new,
               cars (fst (spawn_attempts n self g')) = cars self ++ new /\
               (length new <= S n)%nat).
    { intro g'. destruct (IH self g') as (new & E & L). exists new. split; [assumption | lia]. }
    destruct (random_random g) as [u g1].
    destruct (Qlt_bool u (spawn_probability self)); [|apply Hskip].
    destruct (random_randint 0 2 g1) as [v g2].
    destruct (random_uniform 0 20 g2) as [p g3].
    destruct (_has_space_for_spawn self p (Lane_of v) 30); [|apply Hskip].
    destruct (_create_car self (Some p) (Some (Lane_of v)) g3) as [c g4].
    destruct (IH (set_cars self (cars self ++ [c])) g4) as (new & E & L).
    exists (c :: new). split; [|simpl; lia].
    rewrite E. simpl. now rewrite <- app_assoc.
Qed.

Lemma _spawn_new_cars_if_needed_bound (self : HighwaySimulation) (g : Rng) :
  exists new,
    cars (fst (_spawn_new_cars_if_needed self g)) = cars self ++ new /\
    (length new <=
     Z.to_nat (num_cars self - Z.of_nat (length (cars self))))%nat.
Proof. apply spawn_attempts_appends. Qed.

(** The collection after a tick: the moved cars still on the highway and
    the cars spawned, sorted. *)
Lemma step_cars (self : HighwaySimulation) (g : Rng) :
  exists new,
    cars (fst (step self g)) =
    sort_by_position
      (filter (on_highway self) (fst (moved_cars self g)) ++ new) /\
    (length new <=
     Z.to_nat (num_cars self -
               Z.of_nat (length (filter (on_highway self)
                                        (fst (moved_cars self g))))))%nat.
Proof.
  unfold step. destruct (moved_cars self g) as [l3 g1]. simpl fst.
  match goal with |- context [_spawn_new_cars_if_needed ?s ?r] =>
    destruct (_spawn_new_cars_if_needed_bound s r) as (new & E & L);
    destruct (_spawn_new_cars_if_needed s r) as [self2 g2] end.
  simpl in E, L. exists new. split; [|exact L].
  destruct (jam_found _); simpl; now rewrite E.
Qed.

Lemma step_cars_length (self : HighwaySimulation) (g : Rng) :
  (Z.of_nat (length (cars self)) <= num_cars self)%Z ->
  (Z.of_nat (length (cars (fst (step self g)))) <= num_cars self)%Z.
Proof.
  intro H. destruct (step_cars self g) as (new & E & L).
  rewrite E, sort_by_position_length, length_app.
  pose proof (filter_length_le (on_highway self) (fst (moved_cars self g))) as Hf.
  rewrite moved_cars_length in Hf. lia.
Qed.

(** C6: across a tick a car's position never decreases.  Every car of the
    collection comes out of the three passes with a non-negative speed and
    with its position advanced by exactly
    [speed * time_step * (1000 / 3600)]; the collection after [step()] is made
    of those of the moved cars that are still on the highway, and of the
    cars spawned. *)
Theorem position_never_decreases (self : HighwaySimulation) (g : Rng) :
  0 <= time_step self ->
  Forall2 (fun c c' => tick_moves self c c' /\ position c <= position c')
          (cars self) (fst (moved_cars self g)) /\
  exists spawned,
    Permutation (cars (fst (step self g)))
                (filter (on_highway self) (fst (moved_cars self g)) ++ spawned) /\
    (length spawned <=
     Z.to_nat (num_cars self -
               Z.of_nat (length (filter (on_highway self)
                                        (fst (moved_cars self g))))))%nat.
Proof.
  intro Ht. split.
  - eapply Forall2_impl; [|apply moved_cars_tick_moves].
    intros c c' H. split; [assumption|].
    destruct H as (Hs & Hp & _). rewrite Hp.
    assert (0 <= speed c' * time_step self * (1000 / 3600)); [|lra].
    apply Qmult_le_0_compat; [now apply Qmult_le_0_compat|].
    unfold Qle; simpl; lia.
  - destruct (step_cars self g) as (new & E & L). exists new.
    split; [|assumption]. rewrite E. apply sort_by_position_perm.
Qed.

Lemma position_never_decreases_witness :
  0 <= time_step sim_follow /\
  Forall2 (fun c c' => tick_moves sim_follow c c' /\ position c <= position c')
          (cars sim_follow) (fst (moved_cars sim_follow zero_rng)).
Proof.
  assert (H : 0 <= time_step sim_follow) by (unfold Qle; simpl; lia).
  exact (conj H (proj1 (position_never_decreases sim_follow zero_rng H))).
Defined.

(** ** Construction *)

Lemma create_cars_spec (n : nat) (self : HighwaySimulation) (g : Rng) :
  length (cars (fst (create_cars n self g))) = (length (cars self) + n)%nat /\
  num_cars (fst (create_cars n self g)) = num_cars self /\
  highway_length (fst (create_cars n self g)) = highway_length self /\
  bad_practice_ratio (fst (create_cars n self g)) = bad_practice_ratio self /\
  spawn_probability (fst (create_cars n self g)) = spawn_probability self.
Proof.
  revert self g. induction n as [|n IH]; intros self g; cbn [create_cars].
  - simpl. repeat split. lia.
  - destruct (_create_car self None None g) as [c g'].
    destruct (IH (set_cars self (cars self ++ [c])) g') as (H1 & H2 & H3 & H4 & H5).
    rewrite H1, H2, H3, H4, H5. simpl. rewrite length_app. simpl.
    repeat split. lia.
Qed.

Lemma __init__spec (n : Z) (L r sp : Q) (g : Rng) :
  length (cars (fst (__init__ n L r sp g))) = Z.to_nat n /\
  num_cars (fst (__init__ n L r sp g)) = n /\
  highway_length (fst (__init__ n L r sp g)) = L /\
  bad_practice_ratio (fst (__init__ n L r sp g)) = r /\
  spawn_probability (fst (__init__ n L r sp g)) = sp.
Proof.
  unfold __init__, _initialize_cars.
  match goal with |- context [create_cars ?k ?s ?r] =>
    pose proof (create_cars_spec k s r) as H;
    destruct (create_cars k s r) as [self1 g'] end.
  simpl in *. rewrite sort_by_position_length. tauto.
Qed.

Lemma steps_count (k : nat) (self : HighwaySimulation) (g : Rng) :
  (Z.of_nat (length (cars self)) <= num_cars self)%Z ->
  num_cars (fst (steps k self g)) = num_cars self /\
  (Z.of_nat (length (cars (fst (steps k self g)))) <= num_cars self)%Z.
Proof.
  revert self g. induction k as [|k IH]; intros self g H; cbn [steps].
  - now split.
  - pose proof (step_cars_length self g H) as Hl.
    pose proof (step_frame self g) as (Hn & _).
    destruct (step self g) as [self' g']. simpl in *.
    rewrite <- Hn in *. now apply IH.
Qed.

(** C7: the car count never exceeds the target count.  Construction creates
    exactly [num_cars] cars; after any number of calls of [step()] the
    target is unchanged and the collection holds at most that many cars;
    and a spawn pass appends at most [num_cars - len(cars)] cars, one per
    attempt at most. *)
Theorem car_count_never_exceeds_target
        (n : Z) (L r sp : Q) (g : Rng) (k : nat) :
  (0 <= n)%Z ->
  length (cars (fst (__init__ n L r sp g))) = Z.to_nat n /\
  num_cars (fst (steps k (fst (__init__ n L r sp g))
                       (snd (__init__ n L r sp g)))) = n /\
  (Z.of_nat (length (cars (fst (steps k (fst (__init__ n L r sp g))
                                      (snd (__init__ n L r sp g))))))
   <= n)%Z /\
  (forall self g', exists new,
      cars (fst (_spawn_new_cars_if_needed self g')) = cars self ++ new /\
      (length new <=
       Z.to_nat (num_cars self - Z.of_nat (length (cars self))))%nat).
Proof.
  intro Hn. destruct (__init__spec n L r sp g) as (Hl & Hc & _).
  split; [assumption|].
  destruct (steps_count k (fst (__init__ n L r sp g)) (snd (__init__ n L r sp g)))
    as (H1 & H2); [rewrite Hl, Hc; lia|].
  rewrite Hc in *. repeat split; try assumption.
  apply _spawn_new_cars_if_needed_bound.
Qed.

Lemma car_count_never_exceeds_target_witness :
  (0 <= 3)%Z /\
  length (cars (fst (__init__ 3 2000 (1 # 2) (3 # 10) counting_rng))) = 3%nat /\
  (Z.of_nat
     (length (cars (fst (steps 2 (fst (__init__ 3 2000 (1 # 2) (3 # 10) counting_rng))
                               (snd (__init__ 3 2000 (1 # 2) (3 # 10) counting_rng))))))
   <= 3)%Z.
Proof.
  assert (H : (0 <= 3)%Z) by lia.
  pose proof (car_count_never_exceeds_target 3 2000 (1 # 2) (3 # 10)
                                             counting_rng 2 H) as (H1 & _ & H2 & _).
  exact (conj H (conj H1 H2)).
Defined.

(** ** Acceleration on a free road *)







(** ** Construction validates nothing *)

(** C8, as the code has it: construction never raises.  For every car count,
    highway length, ratio and spawn probability the constructor returns an
    engine that stores the parameters as given and holds [num_cars] cars
    (none when [num_cars] is negative). *)
Theorem construction_accepts_every_configuration
        (n : Z) (L r sp : Q) (g : Rng) :
  exists sim g',
    HighwaySimulation_new n L r sp g = Returns (sim, g') /\
    num_cars sim = n /\ highway_length sim = L /\
    bad_practice_ratio sim = r /\ spawn_probability sim = sp /\
    length (cars sim) = Z.to_nat n.
Proof.
  unfold HighwaySimulation_new.
  destruct (__init__spec n L r sp g) as (H1 & H2 & H3 & H4 & H5).
  destruct (__init__ n L r sp g) as [sim g']. simpl in *.
  exists sim, g'. tauto.
Qed.

(** C8 fails as stated: a negative car count, a ratio above 1 and a
    negative highway length are all accepted. *)
Lemma invalid_configurations_accepted :
  match HighwaySimulation_new (-1) 2000 0 (3 # 10) zero_rng with
  | Returns (sim, _) => num_cars sim = (-1)%Z /\ cars sim = []
  | Raises _ => False
  end /\
  match HighwaySimulation_new 1 2000 (3 # 2) (3 # 10) zero_rng with
  | Returns (sim, _) => bad_practice_ratio sim = 3 # 2
  | Raises _ => False
  end /\
  match HighwaySimulation_new 1 (-5) 0 (3 # 10) zero_rng with
  | Returns (sim, _) => highway_length sim = -5
  | Raises _ => False
  end.
Proof. repeat split. Qed.

(** ** The engine draws from the global generator *)

Lemma random_random_draws (g : Rng) :
  snd (random_random g) = mkRng (source g) (S (cursor g)).
Proof. reflexivity. Qed.

Lemma random_uniform_draws (a b : Q) (g : Rng) :
  snd (random_uniform a b g) = mkRng (source g) (S (cursor g)).
Proof. reflexivity. Qed.

Lemma random_randint_draws (a b : Z) (g : Rng) :
  snd (random_randint a b g) = mkRng (source g) (S (cursor g)).
Proof. reflexivity. Qed.

Lemma random_triangular_draws (low high mode : Q) (g : Rng) :
  snd (random_triangular low high mode g) = mkRng (source g) (S (cursor g)).
Proof.
  unfold random_triangular.
  pose proof (random_random_draws g) as H.
  destruct (random_random g) as [u g']. simpl in H. subst g'.
  destruct (Qeq_bool high low); [reflexivity|].
  now destruct (Qlt_bool ((mode - low) / (high - low)) u).
Qed.

Lemma _create_car_draws (self : HighwaySimulation) (g : Rng) :
  snd (_create_car self None None g) = mkRng (source g) (5 + cursor g).
Proof.
  unfold _create_car.
  pose proof (random_uniform_draws 0 (highway_length self) g) as H1.
  destruct (random_uniform 0 (highway_length self) g) as [p g1].
  simpl in H1. subst g1.
  match goal with |- context [random_triangular ?a ?b ?c ?r] =>
    pose proof (random_triangular_draws a b c r) as H2;
    destruct (random_triangular a b c r) as [m g2] end.
  simpl in H2. subst g2.
  match goal with |- context [random_uniform ?a ?b ?r] =>
    pose proof (random_uniform_draws a b r) as H3;
    destruct (random_uniform a b r) as [f g3] end.
  simpl in H3. subst g3.
  match goal with |- context [random_randint ?a ?b ?r] =>
    pose proof (random_randint_draws a b r) as H4;
    destruct (random_randint a b r) as [v g4] end.
  simpl in H4. subst g4.
  match goal with |- context [random_random ?r] =>
    pose proof (random_random_draws r) as H5;
    destruct (random_random r) as [x g5] end.
  simpl in H5. subst g5. reflexivity.
Qed.

Lemma create_cars_draws (n : nat) (self : HighwaySimulation) (g : Rng) :
  snd (create_cars n self g) = mkRng (source g) (5 * n + cursor g).
Proof.
  revert self g. induction n as [|n IH]; intros self g; cbn [create_cars].
  - now destruct g.
  - pose proof (_create_car_draws self g) as H.
    destruct (_create_car self None None g) as [c g']. simpl in H. subst g'.
    rewrite IH. simpl. f_equal. lia.
Qed.

(** C9, as the code has it: the engine has no seed and no generator of its
    own.  Construction draws five times per car from the global generator
    and leaves it advanced; what reproduces a construction and a run is
    seeding the global generator just before, as [generate_simulation_video]
    does: the engine built and the result of its run then do not depend on
    the earlier state of the generator. *)
Theorem construction_draws_from_global_generator
        (mt : Z -> nat -> N) (seed n max_steps : Z) (L r sp : Q) (g g' : Rng) :
  snd (__init__ n L r sp g) = mkRng (source g) (5 * Z.to_nat n + cursor g) /\
  seeded_construction mt (Some seed) n L r g =
  seeded_construction mt (Some seed) n L r g' /\
  run (fst (seeded_construction mt (Some seed) n L r g)) max_steps
      (snd (seeded_construction mt (Some seed) n L r g)) =
  run (fst (seeded_construction mt (Some seed) n L r g')) max_steps
      (snd (seeded_construction mt (Some seed) n L r g')).
Proof.
  split; [|split; reflexivity].
  unfold __init__, _initialize_cars.
  match goal with |- context [create_cars ?k ?s ?r] =>
    pose proof (create_cars_draws k s r) as H;
    destruct (create_cars k s r) as [self1 g1] end.
  exact H.
Qed.

(** C9 fails as stated: two engines constructed one after the other with
    identical parameters hold different cars, and no parameter of the
    constructor can make them agree. *)
Lemma successive_engines_differ :
  cars (fst (__init__ 1 2000 0 (3 # 10) counting_rng)) <>
  cars (fst (__init__ 1 2000 0 (3 # 10)
                      (snd (__init__ 1 2000 0 (3 # 10) counting_rng)))).
Proof. vm_compute. discriminate. Qed.

(** * Further properties of the engine *)

(** ** What the generator returns *)

Lemma Qsqrt53_range (x : Q) :
  0 <= x -> x <= 1 -> 0 <= Qsqrt53 x /\ Qsqrt53 x <= 1.
Proof.
  intros H0 H1. unfold Qsqrt53. destruct x as [n d].
  unfold Qle in *. cbn [Qnum Qden] in *.
  assert (Hq : (0 <= n * 2 ^ 106 / Z.pos d <= 2 ^ 106)%Z).
  { split.
    - apply Z.div_pos; lia.
    - apply Z.div_le_upper_bound; lia. }
  set (q := (n * 2 ^ 106 / Z.pos d)%Z) in *.
  pose proof (Z.sqrt_nonneg q) as Hs.
  assert (Hs' : (Z.sqrt q <= Z.sqrt (2 ^ 106))%Z) by (apply Z.sqrt_le_mono; lia).
  change (Z.sqrt (2 ^ 106)) with (2 ^ 53)%Z in Hs'.
  change (Z.pos (2 ^ 53)) with (2 ^ 53)%Z. lia.
Qed.

Lemma random_uniform_range (a b : Q) (g : Rng) :
  a <= b -> a <= fst (random_uniform a b g) /\ fst (random_uniform a b g) <= b.
Proof.
  intro H. unfold random_uniform.
  pose proof (random_random_range g) as [H0 H1].
  destruct (random_random g) as [u g']. simpl in *. split; nra.
Qed.

Lemma random_uniform_below (a b : Q) (g : Rng) :
  a < b -> fst (random_uniform a b g) < b.
Proof.
  intro H. unfold random_uniform.
  pose proof (random_random_range g) as [H0 H1].
  destruct (random_random g) as [u g']. simpl in *. nra.
Qed.

Lemma random_triangular_range (low high mode : Q) (g : Rng) :
  low <= mode -> mode <= high ->
  low <= fst (random_triangular low high mode g) /\
  fst (random_triangular low high mode g) <= high.
Proof.
  intros Hl Hh. unfold random_triangular.
  pose proof (random_random_range g) as [H0 H1].
  destruct (random_random g) as [u g']. simpl in H0, H1.
  destruct (Qeq_bool high low) eqn:E; simpl; [split; lra|].
  apply Qeq_bool_neq in E.
  assert (Hd : 0 < high - low).
  { destruct (Qlt_le_dec low high) as [|Hle]; [lra|].
    exfalso. apply E. lra. }
  set (c := (mode - low) / (high - low)).
  assert (Hc : c * (high - low) == mode - low).
  { unfold c. rewrite Qmult_comm. apply Qmult_div_r. lra. }
  assert (Hc0 : 0 <= c /\ c <= 1).
  { split.
    - destruct (Qlt_le_dec c 0); [|assumption]. nra.
    - destruct (Qlt_le_dec 1 c); [|assumption]. nra. }
  destruct Hc0 as [Hc0 Hc1].
  destruct (Qlt_bool c u) eqn:Eu; simpl.
  - destruct (Qsqrt53_range ((1 - u) * (1 - c))) as [Hs0 Hs1]; [nra | nra |].
    split; nra.
  - apply Qlt_bool_false_iff in Eu.
    destruct (Qsqrt53_range (u * c)) as [Hs0 Hs1]; [nra | nra |].
    split; nra.
Qed.

(** ** Car creation *)

Lemma _create_car_fields (self : HighwaySimulation) (p : option Q)
      (l : option Lane) (g : Rng) :
  (90 <= max_speed (fst (_create_car self p l g)) /\
   max_speed (fst (_create_car self p l g)) <= 130) /\
  ((90 # 100) * max_speed (fst (_create_car self p l g))
   <= speed (fst (_create_car self p l g)) /\
   speed (fst (_create_car self p l g))
   <= (98 # 100) * max_speed (fst (_create_car self p l g))) /\
  match p with
  | Some q => position (fst (_create_car self p l g)) = q
  | None => 0 <= highway_length self ->
            0 <= position (fst (_create_car self p l g)) /\
            position (fst (_create_car self p l g)) <= highway_length self
  end /\
  match l with
  | Some l0 => lane (fst (_create_car self p l g)) = l0
  | None => True
  end.
Proof.
  unfold _create_car.
  assert (Hp : exists q g1,
             match p with
             | Some p0 => (p0, g)
             | None => random_uniform 0 (highway_length self) g
             end = (q, g1) /\
             match p with
             | Some p0 => q = p0
             | None => 0 <= highway_length self ->
                       0 <= q /\ q <= highway_length self
             end).
  { destruct p as [p0|].
    - now exists p0, g.
    - pose proof (random_uniform_range 0 (highway_length self) g) as H.
      destruct (random_uniform 0 (highway_length self) g) as [q g1].
      exists q, g1. split; [reflexivity | exact H]. }
  destruct Hp as (q & g1 & -> & Hq).
  assert (Hm : 90 <= 128 /\ 128 <= 130) by (split; unfold Qle; simpl; lia).
  pose proof (random_triangular_range 90 130 128 g1 (proj1 Hm) (proj2 Hm)) as Ht.
  destruct (random_triangular 90 130 128 g1) as [m g2]. simpl in Ht.
  assert (Hf : (90 # 100) <= (98 # 100)) by (unfold Qle; simpl; lia).
  pose proof (random_uniform_range (90 # 100) (98 # 100) g2 Hf) as Hu.
  destruct (random_uniform (90 # 100) (98 # 100) g2) as [f g3]. simpl in Hu.
  assert (Hl : exists l1 g4,
             match l with
             | Some l0 => (l0, g3)
             | None => let (v, g') := random_randint 0 2 g3 in (Lane_of v, g')
             end = (l1, g4) /\
             match l with Some l0 => l1 = l0 | None => True end).
  { destruct l as [l0|].
    - now exists l0, g3.
    - destruct (random_randint 0 2 g3) as [v g']. now exists (Lane_of v), g'. }
  destruct Hl as (l1 & g4 & -> & Hl1).
  destruct (random_random g4) as [r g5]. simpl.
  repeat split; try tauto; try nra.
Qed.

(** X1: a car comes out of [_create_car] with a [max_speed] of [90 .. 130]
    and a speed between 90 % and 98 % of it, hence within
    [0 .. max_speed]; a position and a lane that are given are kept, and a
    position that is drawn lies on the highway. *)
Theorem created_car_is_within_its_max_speed
        (self : HighwaySimulation) (p : option Q) (l : option Lane) (g : Rng) :
  0 <= highway_length self ->
  90 <= max_speed (fst (_create_car self p l g)) /\
  max_speed (fst (_create_car self p l g)) <= 130 /\
  (90 # 100) * max_speed (fst (_create_car self p l g))
  <= speed (fst (_create_car self p l g)) /\
  speed (fst (_create_car self p l g))
  <= (98 # 100) * max_speed (fst (_create_car self p l g)) /\
  0 <= speed (fst (_create_car self p l g)) /\
  speed (fst (_create_car self p l g)) <= max_speed (fst (_create_car self p l g)) /\
  match p with
  | Some q => position (fst (_create_car self p l g)) = q
  | None => 0 <= position (fst (_create_car self p l g)) /\
            position (fst (_create_car self p l g)) <= highway_length self
  end /\
  match l with
  | Some l0 => lane (fst (_create_car self p l g)) = l0
  | None => True
  end.
Proof.
  intro HL.
  destruct (_create_car_fields self p l g) as ((Hm0 & Hm1) & (Hs0 & Hs1) & Hp & Hl).
  destruct p as [q|]; (destruct l as [l0|]);
    repeat split; try assumption; try nra; now apply Hp.
Qed.

Lemma created_car_is_within_its_max_speed_witness :
  0 <= highway_length sim_lone /\
  speed (fst (_create_car sim_lone None None counting_rng))
  <= max_speed (fst (_create_car sim_lone None None counting_rng)).
Proof.
  assert (H : 0 <= highway_length sim_lone) by (unfold Qle; simpl; lia).
  pose proof (created_car_is_within_its_max_speed sim_lone None None counting_rng H)
    as (_ & _ & _ & _ & _ & Hs & _).
  exact (conj H Hs).
Defined.

(** ** The spawn pass *)

Lemma _has_space_for_spawn_true (self : HighwaySimulation) (p : Q) (l : Lane)
      (clearance : Q) :
  _has_space_for_spawn self p l clearance = true <->
  (forall o, In o (cars self) -> lane o = l ->
             clearance <= Qabs (position o - p)).
Proof.
  unfold _has_space_for_spawn. rewrite forallb_forall.
  split; intros H o Ho; specialize (H o Ho).
  - intro Hl. apply negb_true_iff, andb_false_iff in H. destruct H as [H|H].
    + apply Lane_eqb_neq in H. contradiction.
    + now apply Qlt_bool_false_iff.
  - apply negb_true_iff.
    destruct (Lane_eqb (lane o) l) eqn:E; simpl; [|reflexivity].
    apply Qlt_bool_false_iff, H. now apply Lane_eqb_eq.
Qed.

Lemma spawn_attempts_spawned (n : nat) (self : HighwaySimulation) (g : Rng) :
  exists new,
    cars (fst (spawn_attempts n self g)) = cars self ++ new /\
    (length new <= n)%nat /\
    spawned_after (cars self) new.
Proof.
  revert self g. induction n as [|n IH]; intros self g; cbn [spawn_attempts].
  - exists []. simpl. now rewrite app_nil_r.
  - assert (Hskip : forall g', exists new,
               cars (fst (spawn_attempts n self g')) = cars self ++ new /\
               (length new <= S n)%nat /\ spawned_after (cars self) new).
    { intro g'. destruct (IH self g') as (new & E & L & S).
      exists new. repeat split; [assumption | lia | assumption]. }
    destruct (random_random g) as [u g1].
    destruct (Qlt_bool u (spawn_probability self)); [|apply Hskip].
    destruct (random_randint 0 2 g1) as [v g2].
    assert (H20 : 0 <= 20 /\ 0 < 20) by (split; [discriminate | reflexivity]).
    pose proof (random_uniform_range 0 20 g2 (proj1 H20)) as [Hp0 _].
    pose proof (random_uniform_below 0 20 g2 (proj2 H20)) as Hp1.
    destruct (random_uniform 0 20 g2) as [p g3]. simpl in Hp0, Hp1.
    destruct (_has_space_for_spawn self p (Lane_of v) 30) eqn:Hs; [|apply Hskip].
    pose proof (_create_car_fields self (Some p) (Some (Lane_of v)) g3)
      as ((Hm0 & Hm1) & (Hv0 & Hv1) & Hpos & Hlane).
    destruct (_create_car self (Some p) (Some (Lane_of v)) g3) as [c g4].
    simpl in Hm0, Hm1, Hv0, Hv1, Hpos, Hlane.
    destruct (IH (set_cars self (cars self ++ [c])) g4) as (new & E & L & S).
    exists (c :: new). split; [|split].
    + rewrite E. simpl. now rewrite <- app_assoc.
    + simpl; lia.
    + simpl. split; [|exact S]. rewrite Hpos.
      repeat split; try assumption.
      intros o Ho Hl. rewrite Hlane in Hl.
      exact (proj1 (_has_space_for_spawn_true self p (Lane_of v) 30) Hs o Ho Hl).
Qed.

Lemma spawned_after_weaken (base base' new : list Car) :
  incl base' base -> spawned_after base new -> spawned_after base' new.
Proof.
  revert base base'. induction new as [|c rest IH]; intros base base' Hi; simpl;
    [trivial|].
  intros [(H1 & H2 & H3 & H4 & H5 & H6 & H7) Hr]. split.
  - repeat split; try assumption. intros o Ho. apply H7, Hi, Ho.
  - apply (IH (base ++ [c])); [|assumption].
    intros x Hx. apply in_app_or in Hx. apply in_or_app.
    destruct Hx as [Hx|Hx]; [left; now apply Hi | now right].
Qed.

Lemma spawned_after_each (base new : list Car) :
  spawned_after base new ->
  Forall (fun c =>
            0 <= position c /\ position c < 20 /\
            90 <= max_speed c /\ max_speed c <= 130 /\
            (90 # 100) * max_speed c <= speed c /\
            speed c <= (98 # 100) * max_speed c /\
            forall o, In o base -> lane o = lane c ->
                      30 <= Qabs (position o - position c)) new.
Proof.
  revert base. induction new as [|c rest IH]; intros base; simpl;
    [constructor|].
  intros [Hc Hr]. constructor; [exact Hc|].
  apply IH. apply (spawned_after_weaken (base ++ [c])); [|assumption].
  intros x Hx. apply in_or_app. now left.
Qed.

Lemma spawned_after_lanes (base new : list Car) :
  spawned_after base new -> NoDup (map lane new).
Proof.
  revert base. induction new as [|c rest IH]; intros base; simpl;
    [constructor|].
  intros [(H0 & H20 & _) Hr]. constructor; [|now apply (IH (base ++ [c]))].
  intro Hin. apply in_map_iff in Hin as (c' & Hl & Hc').
  apply spawned_after_each in Hr. rewrite Forall_forall in Hr.
  destruct (Hr c' Hc') as (H0' & H20' & _ & _ & _ & _ & Hclear).
  assert (Hc : In c (base ++ [c])) by (apply in_or_app; right; now left).
  specialize (Hclear c Hc (eq_sym Hl)).
  assert (Hlt : Qabs (position c - position c') < 20)
    by (apply Qabs_Qlt_condition; split; lra).
  lra.
Qed.

Lemma lanes_at_most_three (ls : list Lane) : NoDup ls -> (length ls <= 3)%nat.
Proof.
  intro H. apply (NoDup_incl_length H (l' := [RIGHT; MIDDLE; LEFT])).
  intros x _. destruct x; simpl; tauto.
Qed.

(** X2: a spawn pass admits at most one car per lane, hence at most three
    cars, whatever the number of missing cars.  Every car it appends is
    created within the first 20 m, 30 m clear of the cars of its lane that
    were in the collection before the pass. *)
Theorem spawn_pass_admits_one_car_per_lane (self : HighwaySimulation) (g : Rng) :
  exists new,
    cars (fst (_spawn_new_cars_if_needed self g)) = cars self ++ new /\
    NoDup (map lane new) /\
    (length new <= 3)%nat /\
    Forall (fun c =>
              0 <= position c /\ position c < 20 /\
              forall o, In o (cars self) -> lane o = lane c ->
                        30 <= Qabs (position o - position c)) new.
Proof.
  unfold _spawn_new_cars_if_needed.
  match goal with |- context [spawn_attempts ?n ?s ?r] =>
    destruct (spawn_attempts_spawned n s r) as (new & E & _ & S) end.
  exists new. pose proof (spawned_after_lanes _ _ S) as Hnd.
  repeat split; try assumption.
  - rewrite <- (length_map lane). now apply lanes_at_most_three.
  - eapply Forall_impl; [|apply (spawned_after_each _ _ S)].
    simpl. intros c H. tauto.
Qed.

(** X3: no car is spawned into a lane whose first 30 m hold a car: after a
    spawn pass, the cars of such a lane are those it held before. *)
Theorem occupied_entry_blocks_spawn
        (self : HighwaySimulation) (g : Rng) (l : Lane) (o : Car) :
  In o (cars self) -> lane o = l -> 0 <= position o -> position o < 30 ->
  filter (fun c => Lane_eqb (lane c) l)
         (cars (fst (_spawn_new_cars_if_needed self g))) =
  filter (fun c => Lane_eqb (lane c) l) (cars self).
Proof.
  intros Ho Hl H0 H30. unfold _spawn_new_cars_if_needed.
  match goal with |- context [spawn_attempts ?n ?s ?r] =>
    destruct (spawn_attempts_spawned n s r) as (new & E & _ & S) end.
  rewrite E, filter_app.
  assert (Hnone : filter (fun c => Lane_eqb (lane c) l) new = []).
  { apply spawned_after_each in S. rewrite Forall_forall in S.
    destruct (filter (fun c => Lane_eqb (lane c) l) new) as [|c r] eqn:Ef;
      [reflexivity|].
    assert (Hc : In c (filter (fun c => Lane_eqb (lane c) l) new))
      by (rewrite Ef; now left).
    apply filter_In in Hc as [Hc Hcl]. apply Lane_eqb_eq in Hcl.
    destruct (S c Hc) as (Hp0 & Hp20 & _ & _ & _ & _ & Hclear).
    specialize (Hclear o Ho (eq_trans Hl (eq_sym Hcl))).
    assert (Hlt : Qabs (position o - position c) < 30)
      by (apply Qabs_Qlt_condition; split; lra).
    lra. }
  rewrite Hnone. apply app_nil_r.
Qed.

Lemma occupied_entry_blocks_spawn_witness :
  filter (fun c => Lane_eqb (lane c) RIGHT)
         (cars (fst (_spawn_new_cars_if_needed sim_entry zero_rng))) =
  filter (fun c => Lane_eqb (lane c) RIGHT) (cars sim_entry).
Proof.
  apply (occupied_entry_blocks_spawn sim_entry zero_rng RIGHT entry_car).
  - now left.
  - reflexivity.
  - unfold Qle; simpl; lia.
  - unfold Qlt; simpl; lia.
Defined.

(** ** Speeds under a common cap *)

Lemma Forall2_Forall {A : Type} (R : A -> A -> Prop) (P P' : A -> Prop)
      (l l' : list A) :
  (forall a b, R a b -> P a -> P' b) ->
  Forall2 R l l' -> Forall P l -> Forall P' l'.
Proof.
  intros H H2. induction H2 as [|a b l l' Hab _ IH]; intro HP;
    [constructor|].
  inversion HP; subst. constructor; eauto.
Qed.

Lemma find_car_ahead_in (self : HighwaySimulation) (car a : Car) :
  find_car_ahead car (_get_cars_in_lane self (lane car)) = Some a ->
  In a (cars self).
Proof.
  intro H. apply find_car_ahead_Some in H as [H _].
  now apply _get_cars_in_lane_In in H.
Qed.

Lemma _update_car_speed_capped (B : Q) (s : HighwaySimulation) (car : Car) :
  0 <= B -> 0 <= time_step s ->
  Forall (speed_capped B) (cars s) -> speed_capped B car ->
  speed_capped B (_update_car_speed s car).
Proof.
  intros HB Ht Hall [Hs Hm]. unfold speed_capped, _update_car_speed; simpl.
  split; [|assumption]. apply Q.max_lub; [assumption|].
  destruct (find_car_ahead car (_get_cars_in_lane s (lane car))) as [a|] eqn:E.
  - apply find_car_ahead_in in E. rewrite Forall_forall in Hall.
    destruct (Hall a E) as [Ha _].
    destruct (dist_ltb _ _).
    + apply Q.max_lub; lra.
    + destruct (dist_ltb _ _); [assumption|].
      eapply Qle_trans; [apply Q.le_min_r | assumption].
  - eapply Qle_trans; [apply Q.le_min_r | assumption].
Qed.

Lemma speed_pass_capped (B : Q) (self : HighwaySimulation) :
  0 <= B -> 0 <= time_step self ->
  forall todo done,
    Forall (speed_capped B) (done ++ todo) ->
    Forall (speed_capped B) (speed_pass self done todo).
Proof.
  intros HB Ht. induction todo as [|car rest IH]; intros done Hall;
    cbn [speed_pass].
  - now rewrite app_nil_r in Hall.
  - apply IH. rewrite <- app_assoc. simpl.
    pose proof Hall as Hall'.
    apply Forall_app in Hall as [Hd Hr]. inversion Hr as [|? ? Hc Hrest]; subst.
    apply Forall_app. split; [assumption|]. constructor; [|assumption].
    now apply _update_car_speed_capped.
Qed.

Lemma moved_cars_capped (B : Q) (self : HighwaySimulation) (g : Rng) :
  0 <= B -> 0 <= time_step self ->
  Forall (speed_capped B) (cars self) ->
  Forall (speed_capped B) (fst (moved_cars self g)).
Proof.
  intros HB Ht Hall. unfold moved_cars.
  pose proof (lane_pass_Forall2
                (fun c c' => speed c' = speed c /\ max_speed c' = max_speed c)
                self) as H1.
  specialize (H1 (fun s c g0 =>
                    let '(conj _ (conj a (conj b _))) :=
                      _update_car_lane_frame s c g0 in conj a b)
                 (cars self) [] [] g (Forall2_nil _)).
  destruct (lane_pass self [] (cars self) g) as [l1 g1]. simpl in *.
  assert (Hl1 : Forall (speed_capped B) l1).
  { refine (Forall2_Forall _ _ _ _ _ _ H1 Hall).
    unfold speed_capped. intros a b [-> ->] H. exact H. }
  pose proof (speed_pass_capped B self HB Ht l1 [] Hl1) as H2.
  unfold position_pass. rewrite Forall_map.
  eapply Forall_impl; [|exact H2]. intros c H. exact H.
Qed.

Lemma step_cars_spawned (self : HighwaySimulation) (g : Rng) :
  exists new,
    cars (fst (step self g)) =
    sort_by_position
      (filter (on_highway self) (fst (moved_cars self g)) ++ new) /\
    spawned_after (filter (on_highway self) (fst (moved_cars self g))) new.
Proof.
  unfold step. destruct (moved_cars self g) as [l3 g1]. simpl fst.
  unfold _spawn_new_cars_if_needed.
  match goal with |- context [spawn_attempts ?n ?s ?r] =>
    destruct (spawn_attempts_spawned n s r) as (new & E & _ & S);
    destruct (spawn_attempts n s r) as [self2 g2] end.
  simpl in E, S. exists new. split; [|exact S].
  destruct (jam_found _); simpl; now rewrite E.
Qed.

Lemma Forall_sort_by_position (P : Car -> Prop) (l : list Car) :
  Forall P (sort_by_position l) <-> Forall P l.
Proof.
  split; apply Permutation_Forall;
    [|symmetry]; apply sort_by_position_perm.
Qed.

(** X4: the speed update never pushes a speed above the largest speed or
    [max_speed] on the highway.  If no car's speed or [max_speed] is above
    [B] before a tick, then after the three passes every speed is within
    [0 .. B]; and when [B] is at least 130, so is every speed in the
    collection at the end of [step()]. *)
Theorem speeds_stay_under_common_cap
        (B : Q) (self : HighwaySimulation) (g : Rng) :
  0 <= B -> 0 <= time_step self ->
  Forall (speed_capped B) (cars self) ->
  Forall (fun c => 0 <= speed c /\ speed c <= B /\ max_speed c <= B)
         (fst (moved_cars self g)) /\
  (130 <= B ->
   Forall (fun c => 0 <= speed c /\ speed c <= B /\ max_speed c <= B)
          (cars (fst (step self g)))).
Proof.
  intros HB Ht Hall.
  assert (Hmoved : Forall (fun c => 0 <= speed c /\ speed c <= B /\ max_speed c <= B)
                          (fst (moved_cars self g))).
  { pose proof (moved_cars_capped B self g HB Ht Hall) as Hc.
    pose proof (moved_cars_tick_moves self g) as Hm.
    rewrite Forall_forall in *. intros c' Hc'.
    destruct (Hc c' Hc') as [H1 H2]. split; [|now split].
    apply (Forall2_Forall _ (fun _ => True) (fun c => 0 <= speed c) _ _
             (fun a b H _ => proj1 H)) in Hm;
      [|apply Forall_forall; trivial].
    rewrite Forall_forall in Hm. now apply Hm. }
  split; [exact Hmoved|]. intro H130.
  destruct (step_cars_spawned self g) as (new & E & S).
  rewrite E. apply Forall_sort_by_position, Forall_app. split.
  - rewrite Forall_forall in *. intros c Hc.
    apply filter_In in Hc as [Hc _]. now apply Hmoved.
  - eapply Forall_impl; [|apply (spawned_after_each _ _ S)].
    simpl. intros c (_ & _ & Hm0 & Hm1 & Hs0 & Hs1 & _).
    repeat split; nra.
Qed.

Lemma speeds_stay_under_common_cap_witness :
  Forall (fun c => 0 <= speed c /\ speed c <= 130 /\ max_speed c <= 130)
         (cars (fst (step sim_follow zero_rng))).
Proof.
  assert (HB : 0 <= 130) by discriminate.
  assert (Ht : 0 <= time_step sim_follow) by discriminate.
  assert (Hall : Forall (speed_capped 130) (cars sim_follow)).
  { repeat constructor; unfold Qle; simpl; lia. }
  apply (proj2 (speeds_stay_under_common_cap 130 sim_follow zero_rng HB Ht Hall)).
  unfold Qle; simpl; lia.
Defined.

(** ** Bounds kept from construction on *)

Lemma step_in_bounds (self : HighwaySimulation) (g : Rng) :
  0 <= time_step self -> 20 <= highway_length self ->
  Forall (car_in_bounds (highway_length self)) (cars self) ->
  Forall (car_in_bounds (highway_length self)) (cars (fst (step self g))).
Proof.
  intros Ht HL Hall.
  assert (Hcap : Forall (speed_capped 130) (cars self)).
  { eapply Forall_impl; [|exact Hall]. unfold car_in_bounds, speed_capped.
    intros c H. tauto. }
  assert (HB : 0 <= 130) by discriminate.
  pose proof (moved_cars_capped 130 self g HB Ht Hcap) as Hc.
  pose proof (moved_cars_tick_moves self g) as Hm.
  assert (Hm' : Forall (fun c' => 0 <= position c' /\ 0 <= speed c' /\
                                 90 <= max_speed c' /\ max_speed c' <= 130)
                        (fst (moved_cars self g))).
  { refine (Forall2_Forall _ _ _ _ _ _ Hm Hall).
    intros a b (Hs & Hp & Hmx & _) (Ha0 & _ & _ & _ & Ha1 & Ha2).
    rewrite Hp, Hmx. repeat split; try assumption.
    assert (0 <= speed b * time_step self * (1000 / 3600)); [|lra].
    apply Qmult_le_0_compat; [now apply Qmult_le_0_compat | discriminate]. }
  clear Hm. rename Hm' into Hm.
  destruct (step_cars_spawned self g) as (new & E & S).
  rewrite E. apply Forall_sort_by_position, Forall_app. split.
  - rewrite Forall_forall in *. intros c Hin.
    apply filter_In in Hin as [Hin Hon].
    apply Qle_bool_iff in Hon.
    destruct (Hm c Hin) as (H1 & H2 & H3 & H4). destruct (Hc c Hin) as [H5 _].
    unfold car_in_bounds. tauto.
  - eapply Forall_impl; [|apply (spawned_after_each _ _ S)].
    simpl. unfold car_in_bounds.
    intros c (Hp0 & Hp1 & Hm0 & Hm1 & Hs0 & Hs1 & _).
    repeat split; nra.
Qed.

Lemma create_cars_bounds (n : nat) (self : HighwaySimulation) (g : Rng) :
  0 <= highway_length self ->
  Forall (car_in_bounds (highway_length self)) (cars self) ->
  Forall (car_in_bounds (highway_length self)) (cars (fst (create_cars n self g))).
Proof.
  revert self g. induction n as [|n IH]; intros self g HL Hall;
    cbn [create_cars]; [assumption|].
  pose proof (_create_car_fields self None None g)
    as ((Hm0 & Hm1) & (Hs0 & Hs1) & Hp & _).
  destruct (_create_car self None None g) as [c g'].
  simpl in Hm0, Hm1, Hs0, Hs1, Hp. destruct (Hp HL) as [Hp0 Hp1].
  apply (IH (set_cars self (cars self ++ [c])) g' HL). simpl.
  apply Forall_app. split; [assumption|]. constructor; [|constructor].
  unfold car_in_bounds. repeat split; nra.
Qed.

Lemma create_cars_frame (n : nat) (self : HighwaySimulation) (g : Rng) :
  time_step (fst (create_cars n self g)) = time_step self /\
  traffic_jam_detected (fst (create_cars n self g)) = traffic_jam_detected self.
Proof.
  revert self g. induction n as [|n IH]; intros self g; cbn [create_cars].
  - now split.
  - destruct (_create_car self None None g) as [c g1].
    apply (IH (set_cars self (cars self ++ [c])) g1).
Qed.

Lemma __init__bounds (n : Z) (L r sp : Q) (g : Rng) :
  0 <= L ->
  Forall (car_in_bounds L) (cars (fst (__init__ n L r sp g))) /\
  time_step (fst (__init__ n L r sp g)) = 1 # 10 /\
  traffic_jam_detected (fst (__init__ n L r sp g)) = false /\
  StronglySorted position_le (cars (fst (__init__ n L r sp g))).
Proof.
  intro HL. unfold __init__, _initialize_cars.
  match goal with |- context [create_cars ?k ?s ?r] =>
    pose proof (create_cars_bounds k s r HL (Forall_nil _)) as Hb;
    pose proof (create_cars_frame k s r) as (Ht & Hf);
    destruct (create_cars k s r) as [self1 g'] end.
  simpl in *.
  repeat split; try assumption.
  - now apply Forall_sort_by_position.
  - apply sort_by_position_sorted.
Qed.

Lemma step_sorted (self : HighwaySimulation) (g : Rng) :
  StronglySorted position_le (cars (fst (step self g))).
Proof.
  destruct (step_cars_spawned self g) as (new & E & _).
  rewrite E. apply sort_by_position_sorted.
Qed.

(** X5: at the end of [step()] the collection is sorted by position, and
    every car in it is either within [highway_length] or a car just spawned
    on the first 20 m; on a highway of 20 m or more, no car beyond the end
    is left. *)
Theorem tick_leaves_cars_sorted_and_on_highway
        (self : HighwaySimulation) (g : Rng) :
  StronglySorted position_le (cars (fst (step self g))) /\
  Forall (fun c => position c <= highway_length self \/
                   (0 <= position c /\ position c < 20))
         (cars (fst (step self g))) /\
  (20 <= highway_length self ->
   Forall (fun c => position c <= highway_length self)
          (cars (fst (step self g)))).
Proof.
  split; [apply step_sorted|].
  destruct (step_cars_spawned self g) as (new & E & S).
  assert (H : Forall (fun c => position c <= highway_length self \/
                               (0 <= position c /\ position c < 20))
                     (cars (fst (step self g)))).
  { rewrite E. apply Forall_sort_by_position, Forall_app. split.
    - apply Forall_forall. intros c Hc. apply filter_In in Hc as [_ Hc].
      left. now apply Qle_bool_iff.
    - eapply Forall_impl; [|apply (spawned_after_each _ _ S)].
      simpl. intros c (H0 & H1 & _). now right. }
  split; [exact H|]. intro HL.
  eapply Forall_impl; [|exact H]. simpl. intros c [Hc|[_ Hc]]; lra.
Qed.

Lemma steps_in_bounds (k : nat) (L : Q) (self : HighwaySimulation) (g : Rng) :
  20 <= L -> highway_length self = L -> time_step self = 1 # 10 ->
  Forall (car_in_bounds L) (cars self) ->
  StronglySorted position_le (cars self) ->
  Forall (car_in_bounds L) (cars (fst (steps k self g))) /\
  StronglySorted position_le (cars (fst (steps k self g))).
Proof.
  intro HL. revert self g.
  induction k as [|k IH]; intros self g Hh Ht Hb Hs; cbn [steps];
    [now split|].
  assert (Ht0 : 0 <= time_step self) by (rewrite Ht; discriminate).
  pose proof (step_in_bounds self g Ht0) as Hb'. rewrite Hh in Hb'.
  specialize (Hb' HL Hb).
  pose proof (step_sorted self g) as Hs'.
  pose proof (step_frame self g) as (_ & Hh' & Ht' & _).
  destruct (step self g) as [self' g']. simpl in *.
  apply IH; congruence.
Qed.

(** X6: every engine reached from construction keeps its cars in bounds.
    On a highway of 20 m or more, after construction and any number of calls
    of [step()], the collection is sorted by position and every car has its
    position in [0 .. highway_length], its speed in [0 .. 130] and its
    [max_speed] in [90 .. 130]. *)
Theorem engine_keeps_cars_in_bounds
        (n : Z) (L r sp : Q) (g : Rng) (k : nat) :
  20 <= L ->
  Forall (car_in_bounds L)
         (cars (fst (steps k (fst (__init__ n L r sp g))
                           (snd (__init__ n L r sp g))))) /\
  StronglySorted position_le
         (cars (fst (steps k (fst (__init__ n L r sp g))
                           (snd (__init__ n L r sp g))))).
Proof.
  intro HL.
  assert (HL0 : 0 <= L) by lra.
  destruct (__init__bounds n L r sp g HL0) as (Hb & Ht & _ & Hs).
  destruct (__init__spec n L r sp g) as (_ & _ & Hh & _).
  now apply steps_in_bounds.
Qed.

Lemma engine_keeps_cars_in_bounds_witness :
  Forall (car_in_bounds 2000)
         (cars (fst (steps 2 (fst (__init__ 3 2000 (1 # 2) (3 # 10) counting_rng))
                           (snd (__init__ 3 2000 (1 # 2) (3 # 10) counting_rng))))).
Proof.
  assert (H : 20 <= 2000) by discriminate.
  exact (proj1 (engine_keeps_cars_in_bounds 3 2000 (1 # 2) (3 # 10)
                                            counting_rng 2 H)).
Defined.

(** ** Blocked cars and the jam detector *)

Lemma exists_front_car (l : list Car) :
  l <> [] -> exists m, In m l /\ forall o, In o l -> position o <= position m.
Proof.
  induction l as [|c r IH]; [congruence|]. intros _.
  destruct r as [|d r'].
  - exists c. split; [now left|]. intros o [<-|[]]. apply Qle_refl.
  - destruct IH as (m & Hm & Hmax); [discriminate|].
    destruct (Qlt_le_dec (position m) (position c)) as [Hlt|Hle].
    + exists c. split; [now left|]. intros o [<-|Ho]; [apply Qle_refl|].
      specialize (Hmax o Ho). lra.
    + exists m. split; [now right|]. intros o [<-|Ho]; [assumption|].
      now apply Hmax.
Qed.

Lemma front_car_not_blocked (self : HighwaySimulation) (m : Car) :
  (forall o, In o (cars self) -> position o <= position m) ->
  is_blocked self m = false.
Proof.
  intro H. unfold is_blocked.
  rewrite nobody_ahead_None; [reflexivity|]. intros o Ho _. now apply H.
Qed.

Lemma filter_length_lt {A : Type} (p : A -> bool) (l : list A) (x : A) :
  In x l -> p x = false -> (length (filter p l) < length l)%nat.
Proof.
  induction l as [|a r IH]; simpl; [contradiction|].
  intros [<-|Hx] Hp.
  - rewrite Hp. pose proof (filter_length_le p r). lia.
  - specialize (IH Hx Hp). destruct (p a); simpl; lia.
Qed.

Lemma blocked_fewer_than_cars (self : HighwaySimulation) :
  cars self <> [] ->
  (length (filter (is_blocked self) (cars self)) < length (cars self))%nat.
Proof.
  intro Hne. destruct (exists_front_car _ Hne) as (m & Hm & Hmax).
  apply (filter_length_lt _ _ m Hm). now apply front_car_not_blocked.
Qed.

Lemma close_pair_sound (l : list Car) :
  close_pair l = true ->
  exists a b, In a l /\ In b l /\
              position a < position b /\ position b - position a < 100.
Proof.
  induction l as [|a r IH]; [discriminate|].
  destruct r as [|b r']; [discriminate|].
  cbn [close_pair]. intro H. apply orb_true_iff in H as [H|H].
  - exists a, b. split; [now left|]. split; [right; now left|].
    unfold _get_distance in H.
    destruct (Qlt_bool (position a) (position b)) eqn:E; [|discriminate].
    apply Qlt_bool_iff in E. simpl in H. apply Qlt_bool_iff in H. now split.
  - destruct (IH H) as (x & y & Hx & Hy & Hxy).
    exists x, y. split; [now right|]. split; [now right | assumption].
Qed.

Lemma jam_found_four_cars (self : HighwaySimulation) :
  jam_found self = true -> (4 <= length (cars self))%nat.
Proof.
  unfold jam_found. intro H.
  apply andb_true_iff in H as [H3 _]. apply Nat.leb_le in H3.
  assert (Hne : cars self <> []).
  { intro E. rewrite E in H3. simpl in H3. lia. }
  pose proof (blocked_fewer_than_cars self Hne). lia.
Qed.

(** X7: what a raised jam flag stands for.  When the detector of [step]
    finds a jam, at least three cars are blocked, two blocked cars of one
    lane are less than 100 m apart, and the collection holds at least four
    cars, since the car furthest along the highway is never blocked. *)
Theorem jam_needs_four_cars (self : HighwaySimulation) :
  jam_found self = true ->
  (3 <= length (filter (is_blocked self) (cars self)))%nat /\
  (4 <= length (cars self))%nat /\
  exists a b,
    In a (cars self) /\ In b (cars self) /\
    is_blocked self a = true /\ is_blocked self b = true /\
    lane a = lane b /\
    position a < position b /\ position b - position a < 100.
Proof.
  unfold jam_found. intro H.
  apply andb_true_iff in H as [H3 Hl]. apply Nat.leb_le in H3.
  split; [assumption|]. split.
  - assert (Hne : cars self <> []).
    { intro E. rewrite E in H3. simpl in H3. lia. }
    pose proof (blocked_fewer_than_cars self Hne). lia.
  - apply existsb_exists in Hl as (l & _ & Hl).
    apply andb_true_iff in Hl as [_ Hl].
    apply close_pair_sound in Hl as (a & b & Ha & Hb & Hlt & Hd).
    apply sort_by_position_In, filter_In in Ha as [Ha Hla].
    apply sort_by_position_In, filter_In in Hb as [Hb Hlb].
    apply filter_In in Ha as [Ha Hba]. apply filter_In in Hb as [Hb Hbb].
    apply Lane_eqb_eq in Hla, Hlb.
    exists a, b. repeat split; try assumption. congruence.
Qed.

Lemma jam_needs_four_cars_witness :
  jam_found sim_queue = true /\
  (4 <= length (cars sim_queue))%nat.
Proof.
  assert (H : jam_found sim_queue = true) by reflexivity.
  exact (conj H (proj1 (proj2 (jam_needs_four_cars sim_queue H)))).
Defined.

(** ** Runs, in full *)

Lemma step_jam_flag (self : HighwaySimulation) (g : Rng) :
  traffic_jam_detected (fst (step self g)) =
  traffic_jam_detected self || jam_found (fst (step self g)).
Proof.
  unfold step. destruct (moved_cars self g) as [l3 g1].
  unfold _spawn_new_cars_if_needed.
  match goal with |- context [spawn_attempts ?n ?s ?r] =>
    pose proof (spawn_attempts_frame n s r) as H;
    destruct (spawn_attempts n s r) as [self2 g2] end.
  simpl in H. destruct H as (_ & _ & _ & _ & H).
  match goal with |- context [jam_found ?s] =>
    set (self3 := s); destruct (jam_found self3) eqn:Hj end; simpl.
  - change (jam_found (set_traffic_jam_detected self3 true))
      with (jam_found self3). rewrite Hj. now rewrite orb_true_r.
  - rewrite Hj, orb_false_r. exact H.
Qed.

Lemma step_small_fleet (self : HighwaySimulation) (g : Rng) :
  (num_cars self <= 3)%Z -> (length (cars self) <= 3)%nat ->
  (length (cars (fst (step self g))) <= 3)%nat.
Proof.
  intros Hn Hl. destruct (step_cars self g) as (new & E & L).
  rewrite E, sort_by_position_length, length_app.
  pose proof (filter_length_le (on_highway self) (fst (moved_cars self g))) as Hf.
  rewrite moved_cars_length in Hf. lia.
Qed.

Lemma run_loop_invariant (Inv : HighwaySimulation -> Prop) :
  (forall s g, Inv s -> Inv (fst (step s g))) ->
  (forall s, Inv s -> traffic_jam_detected s = false) ->
  forall n i s g, Inv s -> fst (fst (run_loop n i s g)) = false.
Proof.
  intros Hstep Hflag. induction n as [|n IH]; intros i s g Hs;
    cbn [run_loop]; [reflexivity|].
  pose proof (Hstep s g Hs) as Hs'.
  destruct (step s g) as [s' g']. simpl in Hs'.
  rewrite (Hflag s' Hs'), andb_false_r. now apply IH.
Qed.

Lemma small_fleet_step (s : HighwaySimulation) (g : Rng) :
  small_fleet s -> small_fleet (fst (step s g)).
Proof.
  intros (H1 & H2 & H3). unfold small_fleet.
  pose proof (step_small_fleet s g H1 H2) as Hl'.
  pose proof (step_frame s g) as (Hn' & _).
  rewrite Hn'. split; [assumption|]. split; [assumption|].
  rewrite step_jam_flag, H3. simpl.
  destruct (jam_found (fst (step s g))) eqn:Hj; [|reflexivity].
  apply jam_found_four_cars in Hj. lia.
Qed.

(** X8: a fleet of three cars or fewer never reports a jam.  When the target
    count and the collection are both at most three, [run] returns false
    for every [max_steps] and every outcome of the generator. *)
Theorem small_fleet_never_jams
        (self : HighwaySimulation) (max_steps : Z) (g : Rng) :
  (num_cars self <= 3)%Z -> (length (cars self) <= 3)%nat ->
  fst (fst (run self max_steps g)) = false.
Proof.
  intros Hn Hl. unfold run.
  apply (run_loop_invariant small_fleet).
  - intros s g0. apply small_fleet_step.
  - intros s (_ & _ & H). exact H.
  - unfold small_fleet. simpl. repeat split; assumption.
Qed.

Lemma small_fleet_never_jams_witness :
  fst (fst (run sim_follow 800 zero_rng)) = false.
Proof.
  apply (small_fleet_never_jams sim_follow 800 zero_rng); simpl; lia.
Defined.

Lemma run_loop_returns (n : nat) (i : Z) (s : HighwaySimulation) (g : Rng) :
  exists k,
    (k <= n)%nat /\
    snd (fst (run_loop n i s g)) = fst (steps k s g) /\
    snd (run_loop n i s g) = snd (steps k s g) /\
    (fst (fst (run_loop n i s g)) = true ->
     (1 <= k)%nat /\ (101 < i + Z.of_nat k)%Z /\
     traffic_jam_detected (fst (steps k s g)) = true) /\
    (fst (fst (run_loop n i s g)) = false -> k = n) /\
    (forall j, (1 <= j)%nat ->
               (j < k)%nat \/
               ((j <= k)%nat /\ fst (fst (run_loop n i s g)) = false) ->
               (101 < i + Z.of_nat j)%Z ->
               traffic_jam_detected (fst (steps j s g)) = false).
Proof.
  revert i s g. induction n as [|n IH]; intros i s g.
  - exists 0%nat. simpl. repeat split; try lia; try discriminate.
  - cbn [run_loop].
    destruct (step s g) as [s' g'] eqn:Es.
    assert (E1 : forall m, steps (S m) s g = steps m s' g').
    { intro m. cbn [steps]. now rewrite Es. }
    destruct ((100 <? i)%Z && traffic_jam_detected s') eqn:Ec.
    + apply andb_true_iff in Ec as [Hi Hf]. apply Z.ltb_lt in Hi.
      exists 1%nat. rewrite E1. simpl.
      repeat split; try lia; try assumption; try discriminate.
    + destruct (IH (i + 1)%Z s' g') as (k & Hk & Hs & Hg & Ht & Hfl & Hj).
      exists (S k). rewrite E1.
      split; [lia|]. split; [assumption|]. split; [assumption|].
      split; [|split].
      * intro Hr. destruct (Ht Hr) as (H1 & H2 & H3).
        repeat split; try lia; assumption.
      * intro Hr. now rewrite (Hfl Hr).
      * intros j Hj1 Hjk Hij. destruct j as [|j]; [lia|]. rewrite E1.
        destruct j as [|j].
        -- simpl. apply andb_false_iff in Ec as [Ec|Ec]; [|assumption].
           apply Z.ltb_ge in Ec. lia.
        -- apply Hj; [lia| |lia].
           destruct Hjk as [H|[H Hr]]; [left; lia | right; split; [lia|assumption]].
Qed.

(** X9: what [run] returns.  The engine handed back is the one reached
    after some number [k <= max_steps] of ticks from the engine with its flag
    reset.  When [run] returns true, [k] is at least 102, the flag is set
    after [k] ticks and was not set after any earlier tick count from 102 on;
    when it returns false, all [max_steps] ticks were executed and the flag
    is not set after any tick count from 102 on. *)
Theorem run_returns_at_first_flag_after_warm_up
        (self : HighwaySimulation) (max_steps : Z) (g : Rng) :
  exists k,
    (k <= Z.to_nat max_steps)%nat /\
    snd (fst (run self max_steps g)) =
    fst (steps k (set_traffic_jam_detected self false) g) /\
    snd (run self max_steps g) =
    snd (steps k (set_traffic_jam_detected self false) g) /\
    (fst (fst (run self max_steps g)) = true ->
     (102 <= k)%nat /\
     traffic_jam_detected
       (fst (steps k (set_traffic_jam_detected self false) g)) = true /\
     forall j, (102 <= j < k)%nat ->
               traffic_jam_detected
                 (fst (steps j (set_traffic_jam_detected self false) g)) = false) /\
    (fst (fst (run self max_steps g)) = false ->
     k = Z.to_nat max_steps /\
     forall j, (102 <= j <= k)%nat ->
               traffic_jam_detected
                 (fst (steps j (set_traffic_jam_detected self false) g)) = false).
Proof.
  unfold run.
  destruct (run_loop_returns (Z.to_nat max_steps) 0
                             (set_traffic_jam_detected self false) g)
    as (k & Hk & Hs & Hg & Ht & Hf & Hj).
  exists k. repeat split; try assumption.
  - destruct (Ht H) as (_ & H2 & _). lia.
  - now destruct (Ht H).
  - intros j Hjk. apply Hj; lia.
  - now apply Hf.
  - intros j Hjk. apply Hj; [lia | right; split; [lia | assumption] | lia].
Qed.

(** ** Lane changes *)

Lemma return_right_applies_true (self : HighwaySimulation) (car : Car) :
  return_right_applies self car = true <->
  follows_bad_practice car = false /\ lane car <> RIGHT /\
  (forall o, In o (cars self) -> lane o = lane_right_of (lane car) ->
             position o < position car -> 50 <= position car - position o).
Proof.
  rewrite <- return_right_applies_code, andb_true_iff, negb_true_iff,
    _should_move_to_right_behind_only.
  split.
  - intros (Hb & Hl & H). repeat split; try assumption.
    intros o Ho Hlo. apply H; [assumption|]. rewrite Hlo.
    destruct (lane car); [congruence | reflexivity | reflexivity].
  - intros (Hb & Hl & H). repeat split; try assumption.
    intros o Ho Hv. apply H; [assumption|].
    destruct (lane o), (lane car); simpl in *; congruence || lia.
Qed.

Lemma overtake_applies_true (self : HighwaySimulation) (car : Car) :
  overtake_applies self car = true ->
  slower_car_ahead self car = true /\ lane car <> LEFT /\
  (forall o, In o (cars self) -> lane o = lane_left_of (lane car) ->
             position o < position car -> 50 <= position car - position o).
Proof.
  unfold overtake_applies. intro H.
  apply andb_true_iff in H as [Ha Hp].
  apply _can_pass_on_left_behind_only in Hp as [Hne Hp].
  repeat split; try assumption.
  intros o Ho Hlo. apply Hp; [assumption|]. rewrite Hlo.
  destruct (lane car); [reflexivity | reflexivity | congruence].
Qed.

(** X10: every lane change is one step and has its reason.  The lane
    decision either leaves the lane alone, or moves the car one lane right,
    and then the car does not follow bad practice, or moves it one lane
    left, and then a slower car is the nearest car ahead in its lane; in both
    moves no car of the lane entered is less than 50 m behind. *)
Theorem lane_change_is_one_step_with_a_reason
        (self : HighwaySimulation) (car : Car) (g : Rng) :
  lane (fst (_update_car_lane self car g)) = lane car \/
  (lane (fst (_update_car_lane self car g)) = lane_right_of (lane car) /\
   lane car <> RIGHT /\ follows_bad_practice car = false /\
   (forall o, In o (cars self) ->
              lane o = lane (fst (_update_car_lane self car g)) ->
              position o < position car -> 50 <= position car - position o)) \/
  (lane (fst (_update_car_lane self car g)) = lane_left_of (lane car) /\
   lane car <> LEFT /\
   (exists a, In a (cars self) /\ lane a = lane car /\
              position car < position a /\ speed a < speed car /\
              forall o, In o (cars self) -> lane o = lane car ->
                        position car < position o -> position a <= position o) /\
   (forall o, In o (cars self) ->
              lane o = lane (fst (_update_car_lane self car g)) ->
              position o < position car -> 50 <= position car - position o)).
Proof.
  rewrite _update_car_lane_by_rule. cbn [fst].
  assert (Hright : return_right_applies self car = true ->
                   lane (apply_lane_rule car ReturnRight) = lane_right_of (lane car) /\
                   lane car <> RIGHT /\ follows_bad_practice car = false /\
                   (forall o, In o (cars self) ->
                              lane o = lane (apply_lane_rule car ReturnRight) ->
                              position o < position car ->
                              50 <= position car - position o)).
  { intro H. apply return_right_applies_true in H as (Hb & Hl & H).
    simpl. repeat split; assumption. }
  assert (Hlate : forall r, late_rules self car = r ->
            lane (apply_lane_rule car r) = lane car \/
            (lane (apply_lane_rule car r) = lane_right_of (lane car) /\
             lane car <> RIGHT /\ follows_bad_practice car = false /\
             (forall o, In o (cars self) ->
                        lane o = lane (apply_lane_rule car r) ->
                        position o < position car ->
                        50 <= position car - position o)) \/
            (lane (apply_lane_rule car r) = lane_left_of (lane car) /\
             lane car <> LEFT /\
             (exists a, In a (cars self) /\ lane a = lane car /\
                        position car < position a /\ speed a < speed car /\
                        forall o, In o (cars self) -> lane o = lane car ->
                                  position car < position o ->
                                  position a <= position o) /\
             (forall o, In o (cars self) ->
                        lane o = lane (apply_lane_rule car r) ->
                        position o < position car ->
                        50 <= position car - position o))).
  { intros r <-. unfold late_rules.
    destruct (overtake_applies self car) eqn:Ho.
    - right; right. apply overtake_applies_true in Ho as (Hs & Hl & H).
      apply slower_car_ahead_nearest in Hs. simpl.
      repeat split; assumption.
    - destruct (return_right_applies self car) eqn:Hr.
      + right; left. now apply Hright.
      + now left. }
  unfold lane_rule_fired.
  destruct (return_right_applies self car) eqn:Hr.
  - right; left. now apply Hright.
  - destruct (follows_bad_practice car && Lane_eqb (lane car) MIDDLE).
    + destruct (random_random g) as [u g'].
      destruct (Qlt_bool u (7 # 10)); [now left|]. now apply Hlate.
    + now apply Hlate.
Qed.

(** X11: a car that does not follow bad practice and is not in the right
    lane moves one lane right whenever no car of the lane to its right is
    less than 50 m behind it, and the decision draws nothing from the
    generator. *)
Theorem compliant_car_returns_right
        (self : HighwaySimulation) (car : Car) (g : Rng) :
  follows_bad_practice car = false -> lane car <> RIGHT ->
  (forall o, In o (cars self) -> lane o = lane_right_of (lane car) ->
             position o < position car -> 50 <= position car - position o) ->
  _update_car_lane self car g = (set_lane car (lane_right_of (lane car)), g).
Proof.
  intros Hb Hl H. rewrite _update_car_lane_by_rule. unfold lane_rule_fired.
  assert (Hr : return_right_applies self car = true)
    by (apply return_right_applies_true; repeat split; assumption).
  now rewrite Hr.
Qed.

Lemma compliant_car_returns_right_witness :
  _update_car_lane sim_lone lone_car zero_rng =
  (set_lane lone_car (lane_right_of (lane lone_car)), zero_rng).
Proof.
  apply (compliant_car_returns_right sim_lone lone_car zero_rng).
  - reflexivity.
  - discriminate.
  - intros o [<-|[]]. discriminate.
Defined.

(** ** The sweep driver *)

Lemma run_trials_count (n : nat) (num_cars : Z) (ratio : Q) (j : Z) (g : Rng) :
  (j <= fst (run_trials n num_cars ratio j g) <= j + Z.of_nat n)%Z.
Proof.
  revert j g. induction n as [|n IH]; intros j g; cbn [run_trials].
  - simpl. lia.
  - destruct (__init__ num_cars 2000 ratio (3 # 10) g) as [sim g1].
    destruct (run sim 800 g1) as [[jam s'] g2].
    specialize (IH (if jam then (j + 1)%Z else j) g2).
    destruct jam; lia.
Qed.

Lemma run_trials_small_fleet (n : nat) (num_cars : Z) (ratio : Q) (j : Z) (g : Rng) :
  (num_cars <= 3)%Z ->
  fst (run_trials n num_cars ratio j g) = j.
Proof.
  intro Hc. revert j g. induction n as [|n IH]; intros j g; cbn [run_trials];
    [reflexivity|].
  destruct (__init__spec num_cars 2000 ratio (3 # 10) g) as (Hl & Hn & _).
  destruct (__init__ num_cars 2000 ratio (3 # 10) g) as [sim g1]. simpl in Hl, Hn.
  assert (Hr : fst (fst (run sim 800 g1)) = false).
  { unfold run. apply (run_loop_invariant small_fleet).
    - intros s g0. apply small_fleet_step.
    - intros s (_ & _ & H). exact H.
    - unfold small_fleet. simpl. repeat split; lia. }
  destruct (run sim 800 g1) as [[jam s'] g2]. simpl in Hr. subst jam.
  apply IH.
Qed.

Lemma probability_range (jam_count num_trials : Z) :
  (0 <= jam_count <= Z.of_nat (Z.to_nat num_trials))%Z ->
  num_trials <> 0%Z ->
  0 <= inject_Z jam_count / inject_Z num_trials /\
  inject_Z jam_count / inject_Z num_trials <= 1.
Proof.
  intros Hj Hn. destruct (Z_lt_le_dec 0 num_trials) as [Hpos|Hneg].
  - assert (Hq : 0 < inject_Z num_trials)
      by (unfold Qlt, inject_Z; simpl; lia).
    assert (H0 : 0 <= inject_Z jam_count)
      by (unfold Qle, inject_Z; simpl; lia).
    assert (H1 : inject_Z jam_count <= inject_Z num_trials)
      by (unfold Qle, inject_Z; simpl; lia).
    split.
    + apply Qle_shift_div_l; [assumption|]. lra.
    + apply Qle_shift_div_r; [assumption|]. lra.
  - assert (jam_count = 0%Z) by lia. subst jam_count.
    assert (E : inject_Z 0 / inject_Z num_trials == 0)
      by (unfold Qdiv; apply Qmult_0_l).
    rewrite E. split; [apply Qle_refl | discriminate].
Qed.

Lemma dict_set_Forall (P : Q * Q -> Prop) (d : list (Q * Q)) (k v : Q) :
  (forall k', k' == k -> P (k', v)) ->
  Forall P d -> Forall P (dict_set d k v).
Proof.
  intros Hv. induction d as [|[k' v'] r IH]; simpl; intro H.
  - constructor; [apply Hv; reflexivity | constructor].
  - inversion H; subst. destruct (Qeq_bool k' k) eqn:E.
    + constructor; [|assumption]. apply Hv. now apply Qeq_bool_iff.
    + constructor; [assumption | now apply IH].
Qed.

Lemma dict_set_has (d : list (Q * Q)) (k v : Q) :
  exists k', In (k', v) (dict_set d k v) /\ k' == k.
Proof.
  induction d as [|[k1 v1] r IH]; simpl.
  - exists k. split; [now left | reflexivity].
  - destruct (Qeq_bool k1 k) eqn:E.
    + exists k1. split; [now left | now apply Qeq_bool_iff].
    + destruct IH as (k' & Hin & Hk). exists k'. split; [now right | assumption].
Qed.

Lemma dict_set_keeps (d : list (Q * Q)) (k v x : Q) :
  dict_has d x -> dict_has (dict_set d k v) x.
Proof.
  unfold dict_has. induction d as [|[k1 v1] r IH]; simpl.
  - intros (k' & v' & [] & _).
  - intros (k' & v' & [Hin|Hin] & Hk).
    + injection Hin as <- <-.
      destruct (Qeq_bool k1 k); [exists k1, v | exists k1, v1];
        (split; [now left | assumption]).
    + destruct (Qeq_bool k1 k).
      * exists k', v'. split; [now right | assumption].
      * destruct IH as (k2 & v2 & Hin2 & Hk2); [now exists k', v'|].
        exists k2, v2. split; [now right | assumption].
Qed.

Lemma dict_set_length (d : list (Q * Q)) (k v : Q) :
  (length (dict_set d k v) <= S (length d))%nat.
Proof.
  induction d as [|[k1 v1] r IH]; simpl; [lia|].
  destruct (Qeq_bool k1 k); simpl; lia.
Qed.

Lemma sweep_ratios_returns (P : Q -> Prop) (ratios : list Q)
      (num_cars num_trials : Z) :
  num_trials <> 0%Z ->
  (forall ratio g,
      P (inject_Z (fst (run_trials (Z.to_nat num_trials) num_cars ratio 0 g))
         / inject_Z num_trials)) ->
  forall results g,
    Forall (fun kv => P (snd kv)) results ->
    exists d g',
      sweep_ratios ratios num_cars num_trials results g = Returns (d, g') /\
      Forall (fun kv => P (snd kv)) d /\
      (forall k, dict_has results k \/ (exists r, In r ratios /\ r == k) ->
                 dict_has d k) /\
      (length d <= length results + length ratios)%nat.
Proof.
  intros Hn HP. induction ratios as [|ratio rest IH]; intros results g Hres;
    cbn [sweep_ratios].
  - exists results, g. repeat split; [assumption| |simpl; lia].
    intros k [H|(r & [] & _)]. exact H.
  - pose proof (HP ratio g) as Hp.
    destruct (run_trials (Z.to_nat num_trials) num_cars ratio 0 g)
      as [jam_count g1]. simpl in Hp.
    apply Z.eqb_neq in Hn. rewrite Hn. apply Z.eqb_neq in Hn.
    set (probability := inject_Z jam_count / inject_Z num_trials) in *.
    destruct (IH (dict_set results ratio probability) g1)
      as (d & g' & E & Hd & Hk & Hlen).
    { apply dict_set_Forall; [|assumption]. intros k' _. exact Hp. }
    exists d, g'. repeat split; try assumption.
    + intros k [H|(r & [<-|Hr] & Hrk)].
      * apply Hk. left. now apply dict_set_keeps.
      * apply Hk. left.
        destruct (dict_set_has results ratio probability) as (k' & Hin & Hk').
        exists k', probability. split; [assumption|]. now rewrite Hk'.
      * apply Hk. right. now exists r.
    + pose proof (dict_set_length results ratio probability). simpl. lia.
Qed.

(** X12: [run_simulation] with [num_trials = 0] divides by zero.  With the
    default ratios, or any non-empty list of ratios, the call raises at the
    first ratio; with an empty list it returns the empty dict and draws
    nothing. *)
Theorem sweep_without_trials_raises (num_cars : Z) (g : Rng) :
  run_simulation num_cars 0 None g = Raises tt /\
  (forall ratio rest,
      run_simulation num_cars 0 (Some (ratio :: rest)) g = Raises tt) /\
  (forall num_trials,
      run_simulation num_cars num_trials (Some []) g = Returns ([], g)).
Proof.
  repeat split.
Qed.

(** X13: [run_simulation] with [num_trials] other than zero returns a dict
    that has an item for every ratio asked for, at most one item per ratio
    of the list, and in which every probability is between 0 and 1. *)
Theorem sweep_probabilities_are_probabilities
        (num_cars num_trials : Z) (ratios : list Q) (g : Rng) :
  num_trials <> 0%Z ->
  exists d g',
    run_simulation num_cars num_trials (Some ratios) g = Returns (d, g') /\
    Forall (fun kv => 0 <= snd kv /\ snd kv <= 1) d /\
    (forall r, In r ratios -> dict_has d r) /\
    (length d <= length ratios)%nat.
Proof.
  intro Hn. unfold run_simulation.
  destruct (sweep_ratios_returns (fun p => 0 <= p /\ p <= 1) ratios
                                 num_cars num_trials Hn) with (results := @nil (Q * Q)) (g := g)
    as (d & g' & E & Hd & Hk & Hl).
  - intros ratio g0. apply probability_range; [|assumption].
    pose proof (run_trials_count (Z.to_nat num_trials) num_cars ratio 0 g0). lia.
  - constructor.
  - exists d, g'. repeat split; try assumption.
    intros r Hr. apply Hk. right. exists r. split; [assumption | reflexivity].
Qed.

Lemma sweep_probabilities_are_probabilities_witness :
  exists d g',
    run_simulation 2 1 (Some [0; 1]) zero_rng = Returns (d, g') /\
    Forall (fun kv => 0 <= snd kv /\ snd kv <= 1) d.
Proof.
  assert (H : 1%Z <> 0%Z) by discriminate.
  destruct (sweep_probabilities_are_probabilities 2 1 [0; 1] zero_rng H)
    as (d & g' & E & Hd & _).
  exists d, g'. now split.
Defined.

(** X14: with three cars or fewer, [run_simulation] reports a jam
    probability of zero for every ratio. *)
Theorem sweep_of_small_fleet_reports_no_jam
        (num_cars num_trials : Z) (ratios : list Q) (g : Rng) :
  (num_cars <= 3)%Z -> num_trials <> 0%Z ->
  exists d g',
    run_simulation num_cars num_trials (Some ratios) g = Returns (d, g') /\
    Forall (fun kv => snd kv == 0) d /\
    (forall r, In r ratios -> dict_has d r).
Proof.
  intros Hc Hn. unfold run_simulation.
  destruct (sweep_ratios_returns (fun p => p == 0) ratios
                                 num_cars num_trials Hn) with (results := @nil (Q * Q)) (g := g)
    as (d & g' & E & Hd & Hk & _).
  - intros ratio g0. rewrite run_trials_small_fleet by assumption.
    unfold Qdiv. apply Qmult_0_l.
  - constructor.
  - exists d, g'. repeat split; try assumption.
    intros r Hr. apply Hk. right. exists r. split; [assumption | reflexivity].
Qed.

Lemma sweep_of_small_fleet_reports_no_jam_witness :
  exists d g',
    run_simulation 3 2 (Some [1 # 2]) zero_rng = Returns (d, g') /\
    Forall (fun kv => snd kv == 0) d.
Proof.
  assert (Hc : (3 <= 3)%Z) by lia.
  assert (Hn : 2%Z <> 0%Z) by discriminate.
  destruct (sweep_of_small_fleet_reports_no_jam 3 2 [1 # 2] zero_rng Hc Hn)
    as (d & g' & E & Hd & _).
  exists d, g'. now split.
Defined.

(** ** The colours of the video *)

Lemma Car_eqb_refl (c : Car) : Car_eqb c c = true.
Proof.
  unfold Car_eqb.
  rewrite !(proj2 (Qeq_bool_iff _ _) (Qeq_refl _)).
  now destruct (lane c), (follows_bad_practice c).
Qed.

Lemma Car_eqb_lane (a b : Car) : Car_eqb a b = true -> lane a = lane b.
Proof.
  unfold Car_eqb. intro H.
  apply andb_true_iff in H as [H _]. apply andb_true_iff in H as [H _].
  apply andb_true_iff in H as [_ H]. now apply Lane_eqb_eq.
Qed.

(** X15: what the colours of [_get_car_color] say.  A car that is not
    blocked is drawn in the colour of its trait.  A car drawn in the jam
    colour is blocked, and two blocked cars of its lane are at distinct
    positions less than 100 m apart. *)
Theorem jam_colour_marks_a_blocked_queue (sim : HighwaySimulation) (car : Car) :
  (is_blocked sim car = false ->
   _get_car_color sim car =
   if follows_bad_practice car then car_color_bad_practice
   else car_color_normal) /\
  (_get_car_color sim car = car_color_jam ->
   is_blocked sim car = true /\
   exists a b,
     In a (cars sim) /\ In b (cars sim) /\
     is_blocked sim a = true /\ is_blocked sim b = true /\
     lane a = lane car /\ lane b = lane car /\
     position a < position b /\ position b - position a < 100).
Proof.
  unfold _get_car_color. split.
  - intro H. now rewrite H.
  - destruct (is_blocked sim car) eqn:Hb.
    + match goal with |- (if ?c then _ else _) = _ -> _ =>
        destruct c eqn:Hc end; [|discriminate].
      intros _. split; [reflexivity|].
      apply andb_true_iff in Hc as [_ Hc].
      apply existsb_exists in Hc as (l & _ & Hc).
      apply andb_true_iff in Hc as [Hc Hp].
      apply andb_true_iff in Hc as [_ Hc].
      apply existsb_exists in Hc as (c' & Hc' & He).
      apply Car_eqb_lane in He.
      apply filter_In in Hc' as [_ Hl']. apply Lane_eqb_eq in Hl'.
      apply close_pair_sound in Hp as (a & b & Ha & Hb' & Hlt & Hd).
      apply sort_by_position_In, filter_In in Ha as [Ha Hla].
      apply sort_by_position_In, filter_In in Hb' as [Hb' Hlb].
      apply filter_In in Ha as [Ha Hba]. apply filter_In in Hb' as [Hb' Hbb].
      apply Lane_eqb_eq in Hla, Hlb.
      exists a, b. repeat split; try assumption; congruence.
    + destruct (follows_bad_practice car); discriminate.
Qed.

Lemma jam_colour_marks_a_blocked_queue_witness :
  _get_car_color sim_queue_1 queue_tail = car_color_jam /\
  is_blocked sim_queue_1 queue_tail = true.
Proof.
  assert (H : _get_car_color sim_queue_1 queue_tail = car_color_jam)
    by (vm_compute; reflexivity).
  exact (conj H (proj1 (proj2 (jam_colour_marks_a_blocked_queue
                                 sim_queue_1 queue_tail) H))).
Defined.

(** X16: a jam that the engine detects shows in the video.  When the jam
    condition of [step] holds on the engine, two cars of the collection at
    distinct positions are drawn in the jam colour. *)
Theorem detected_jam_is_drawn (sim : HighwaySimulation) :
  jam_found sim = true ->
  exists a b,
    In a (cars sim) /\ In b (cars sim) /\ position a < position b /\
    _get_car_color sim a = car_color_jam /\
    _get_car_color sim b = car_color_jam.
Proof.
  unfold jam_found. intro H.
  apply andb_true_iff in H as [H3 Hl]. apply Nat.leb_le in H3.
  apply existsb_exists in Hl as (l & Hlin & Hl).
  apply andb_true_iff in Hl as [H2 Hp].
  pose proof Hp as Hp'.
  apply close_pair_sound in Hp' as (a & b & Ha & Hb & Hlt & _).
  apply (proj1 (sort_by_position_In _ _)) in Ha.
  apply (proj1 (sort_by_position_In _ _)) in Hb.
  assert (Hcol : forall c,
             In c (filter (fun c => Lane_eqb (lane c) l)
                          (filter (is_blocked sim) (cars sim))) ->
             In c (cars sim) /\ _get_car_color sim c = car_color_jam).
  { intros c Hc. pose proof Hc as Hc'.
    apply filter_In in Hc' as [Hc' _]. apply filter_In in Hc' as [Hin Hbl].
    split; [assumption|]. unfold _get_car_color. rewrite Hbl. cbv zeta.
    assert (E2 : (2 <=? length (filter (is_blocked sim) (cars sim)))%nat = true)
      by (apply Nat.leb_le; lia).
    assert (Ex : existsb
                   (fun l0 =>
                      (2 <=? length (filter (fun c0 => Lane_eqb (lane c0) l0)
                                            (filter (is_blocked sim) (cars sim))))%nat
                      && existsb (Car_eqb c)
                                 (filter (fun c0 => Lane_eqb (lane c0) l0)
                                         (filter (is_blocked sim) (cars sim)))
                      && close_pair
                           (sort_by_position
                              (filter (fun c0 => Lane_eqb (lane c0) l0)
                                      (filter (is_blocked sim) (cars sim)))))
                   [LEFT; MIDDLE; RIGHT] = true).
    { apply existsb_exists. exists l. split; [assumption|].
      rewrite H2, Hp. simpl. rewrite andb_true_r.
      apply existsb_exists. exists c. split; [assumption | apply Car_eqb_refl]. }
    now rewrite E2, Ex. }
  destruct (Hcol a Ha) as [Hain Hac]. destruct (Hcol b Hb) as [Hbin Hbc].
  exists a, b. repeat split; assumption.
Qed.

Lemma detected_jam_is_drawn_witness :
  jam_found sim_queue = true /\
  exists a b,
    In a (cars sim_queue) /\ In b (cars sim_queue) /\ position a < position b /\
    _get_car_color sim_queue a = car_color_jam /\
    _get_car_color sim_queue b = car_color_jam.
Proof.
  assert (H : jam_found sim_queue = true) by reflexivity.
  exact (conj H (detected_jam_is_drawn sim_queue H)).
Defined.

(** ** The cars of a lane *)

Lemma sort_by_position_sorted_id (l : list Car) :
  StronglySorted position_le l -> sort_by_position l = l.
Proof.
  induction 1 as [|c r Hs IH Hc]; simpl; [reflexivity|].
  rewrite IH. now apply insert_by_position_head.
Qed.

Lemma filter_sorted (keep : Car -> bool) (l : list Car) :
  StronglySorted position_le l -> StronglySorted position_le (filter keep l).
Proof.
  induction 1 as [|c r Hs IH Hc]; simpl; [constructor|].
  destruct (keep c); [|assumption]. constructor; [assumption|].
  rewrite Forall_forall in *. intros x Hx. apply Hc.
  now apply filter_In in Hx.
Qed.

(** X17: [_get_cars_in_lane] returns exactly the cars of the lane, each as
    often as the collection holds it, in non-decreasing order of position;
    and on a collection that is already sorted by position, as [step] and
    construction leave it, they come in the order of the collection. *)
Theorem lane_cars_are_sorted_lane_members (self : HighwaySimulation) (l : Lane) :
  Permutation (_get_cars_in_lane self l)
              (filter (fun c => Lane_eqb (lane c) l) (cars self)) /\
  StronglySorted position_le (_get_cars_in_lane self l) /\
  (forall c, In c (_get_cars_in_lane self l) <-> In c (cars self) /\ lane c = l) /\
  (StronglySorted position_le (cars self) ->
   _get_cars_in_lane self l = filter (fun c => Lane_eqb (lane c) l) (cars self)).
Proof.
  unfold _get_cars_in_lane. split; [apply sort_by_position_perm|].
  split; [apply sort_by_position_sorted|]. split.
  - intro c. apply _get_cars_in_lane_In.
  - intro Hs. apply sort_by_position_sorted_id. now apply filter_sorted.
Qed.

(** ** Blocked cars *)

Lemma target_lane_clear_false (d : Q) (car : Car) (l : list Car) :
  (forall o, In o l -> lane o <> lane car) ->
  target_lane_clear d car l = false ->
  exists o, In o l /\ position o < position car /\
            position car - position o < d.
Proof.
  induction l as [|b l IH]; simpl; intros Hl H; [discriminate|].
  assert (Eb : _is_car_ahead car b = false).
  { apply _is_car_ahead_false. intro E. now apply Hl in E; [|left]. }
  rewrite Eb in H. unfold _get_distance in H.
  destruct (Qlt_bool (position b) (position car)) eqn:Ep; simpl in H.
  - apply Qlt_bool_iff in Ep.
    destruct (Qlt_bool (position car - position b) d) eqn:Ed.
    + apply Qlt_bool_iff in Ed. exists b. split; [now left | now split].
    + destruct IH as (o & Ho & Hp); [intros; apply Hl; now right | assumption|].
      exists o. split; [now right | assumption].
  - destruct IH as (o & Ho & Hp); [intros; apply Hl; now right | assumption|].
    exists o. split; [now right | assumption].
Qed.

Lemma _can_pass_on_left_false (self : HighwaySimulation) (car : Car) :
  _can_pass_on_left self car = false -> lane car <> LEFT ->
  exists o, In o (cars self) /\ lane o = lane_left_of (lane car) /\
            position o < position car /\ position car - position o < 50.
Proof.
  unfold _can_pass_on_left. intros H Hl.
  destruct (Lane_eqb (lane car) LEFT) eqn:E;
    [apply Lane_eqb_eq in E; contradiction|].
  apply target_lane_clear_false in H.
  - destruct H as (o & Ho & Hp). apply _get_cars_in_lane_In in Ho as [Ho Hlo].
    exists o. split; [assumption|]. split; [|assumption].
    rewrite Hlo. now apply Lane_of_left.
  - intros o Ho. apply _get_cars_in_lane_In in Ho as [_ ->].
    destruct (lane car); try congruence; discriminate.
Qed.

(** X18: what [is_blocked] reports.  A blocked car has a slower car as the
    nearest car ahead in its lane; and unless it is in the left lane, that
    car is less than 50 m ahead and a car of the lane to its left is less
    than 50 m behind it. *)
Theorem blocked_car_has_slower_leader (self : HighwaySimulation) (car : Car) :
  is_blocked self car = true ->
  exists a,
    In a (cars self) /\ lane a = lane car /\
    position car < position a /\ speed a < speed car /\
    (forall o, In o (cars self) -> lane o = lane car ->
               position car < position o -> position a <= position o) /\
    (lane car = LEFT \/
     (position a - position car < 50 /\
      exists o, In o (cars self) /\ lane o = lane_left_of (lane car) /\
                position o < position car /\ position car - position o < 50)).
Proof.
  unfold is_blocked.
  destruct (find_car_ahead car (_get_cars_in_lane self (lane car)))
    as [a|] eqn:E; [|discriminate].
  pose proof E as E'.
  apply find_car_ahead_Some in E' as (Hin & Ha & Hmin).
  apply _get_cars_in_lane_In in Hin as [Hin Hl].
  pose proof Ha as Ha'. apply _is_car_ahead_true in Ha' as [_ Hpos].
  destruct (Qle_bool (speed car) (speed a)) eqn:Hs; [discriminate|].
  apply Qle_bool_false_iff in Hs.
  destruct (_can_pass_on_left self car) eqn:Hp; [discriminate|].
  intro H. exists a. repeat split; try assumption.
  - intros o Ho Hlo Hpo. apply Hmin.
    + apply _get_cars_in_lane_In. now split.
    + apply _is_car_ahead_true. now split.
  - destruct (Lane_eqb (lane car) LEFT) eqn:El.
    + left. now apply Lane_eqb_eq.
    + right. apply Lane_eqb_neq in El. split.
      * rewrite (_is_car_ahead_distance _ _ Ha) in H. simpl in H.
        now apply Qlt_bool_iff.
      * now apply _can_pass_on_left_false.
Qed.

Lemma blocked_car_has_slower_leader_witness :
  is_blocked sim_queue_1 queue_tail = true /\
  exists a, In a (cars sim_queue_1) /\ speed a < speed queue_tail.
Proof.
  assert (H : is_blocked sim_queue_1 queue_tail = true)
    by (vm_compute; reflexivity).
  destruct (blocked_car_has_slower_leader sim_queue_1 queue_tail H)
    as (a & Ha & _ & _ & Hs & _).
  split; [assumption|]. exists a. now split.
Defined.

(** X19: [step] only ever raises the jam flag.  After a tick the flag is set
    exactly when it was set before or the jam condition holds on the new
    collection; once set it stays set through any number of ticks. *)
Theorem tick_only_raises_the_flag (self : HighwaySimulation) (g : Rng) (k : nat) :
  traffic_jam_detected (fst (step self g)) =
  traffic_jam_detected self || jam_found (fst (step self g)) /\
  (traffic_jam_detected self = true ->
   traffic_jam_detected (fst (steps k self g)) = true).
Proof.
  split.
  - apply step_jam_flag.
  - apply steps_keep_jam_flag.
Qed.

(** ** Bad practice over a tick *)

Lemma lane_rule_fired_cases (s : HighwaySimulation) (c : Car) (g : Rng) :
  match fst (lane_rule_fired s c g) with
  | ReturnRight | LateReturnRight => return_right_applies s c = true
  | OvertakeLeft => overtake_applies s c = true
  | DwellInMiddle | KeepLane => True
  end.
Proof.
  unfold lane_rule_fired.
  destruct (return_right_applies s c) eqn:Hr; [reflexivity|].
  assert (Hlate : match late_rules s c with
                  | ReturnRight | LateReturnRight => false = true
                  | OvertakeLeft => overtake_applies s c = true
                  | DwellInMiddle | KeepLane => True
                  end).
  { unfold late_rules. rewrite Hr.
    destruct (overtake_applies s c); [reflexivity | exact I]. }
  destruct (follows_bad_practice c && Lane_eqb (lane c) MIDDLE);
    [|exact Hlate].
  destruct (random_random g) as [u g1].
  destruct (Qlt_bool u (7 # 10)); [exact I | exact Hlate].
Qed.

Lemma _update_car_lane_one_step (s : HighwaySimulation) (c : Car) (g : Rng) :
  (Lane_value (lane c) - 1
   <= Lane_value (lane (fst (_update_car_lane s c g)))
   <= Lane_value (lane c) + 1)%Z /\
  (follows_bad_practice c = true ->
   (Lane_value (lane c)
    <= Lane_value (lane (fst (_update_car_lane s c g))))%Z).
Proof.
  rewrite _update_car_lane_by_rule. cbn [fst].
  pose proof (lane_rule_fired_cases s c g) as H.
  assert (Hright : return_right_applies s c = true ->
                   follows_bad_practice c = false /\
                   Lane_value (lane_right_of (lane c)) = (Lane_value (lane c) - 1)%Z).
  { intro Hr. apply return_right_applies_true in Hr as (Hb & Hl & _).
    split; [assumption|]. destruct (lane c); [congruence | reflexivity | reflexivity]. }
  destruct (fst (lane_rule_fired s c g)); simpl.
  - destruct (Hright H) as [Hb ->]. rewrite Hb. split; [lia | discriminate].
  - split; [lia | intros; lia].
  - apply overtake_applies_true in H as (_ & Hl & _).
    assert (E : Lane_value (lane_left_of (lane c)) = (Lane_value (lane c) + 1)%Z)
      by (destruct (lane c); [reflexivity | reflexivity | congruence]).
    rewrite E. split; [lia | intros; lia].
  - destruct (Hright H) as [Hb ->]. rewrite Hb. split; [lia | discriminate].
  - split; [lia | intros; lia].
Qed.

(** X20: a car that follows bad practice never returns to the right.  Over
    the three passes of a tick the lane of every car changes by one step at
    most, and the lane of a bad-practice car never moves towards the right
    lane; a bad-practice car in the left lane stays there. *)
Theorem bad_practice_car_never_returns_right (self : HighwaySimulation) (g : Rng) :
  Forall2 (fun c c' =>
             (Lane_value (lane c) - 1 <= Lane_value (lane c')
              <= Lane_value (lane c) + 1)%Z /\
             (follows_bad_practice c = true ->
              (Lane_value (lane c) <= Lane_value (lane c'))%Z))
          (cars self) (fst (moved_cars self g)).
Proof.
  unfold moved_cars.
  pose proof (lane_pass_Forall2
                (fun c c' =>
                   (Lane_value (lane c) - 1 <= Lane_value (lane c')
                    <= Lane_value (lane c) + 1)%Z /\
                   (follows_bad_practice c = true ->
                    (Lane_value (lane c) <= Lane_value (lane c'))%Z))
                self) as H1.
  specialize (H1 _update_car_lane_one_step (cars self) [] [] g (Forall2_nil _)).
  destruct (lane_pass self [] (cars self) g) as [l1 g1]. simpl in *.
  pose proof (speed_pass_Forall2 (fun c c' => lane c' = lane c) self) as H2.
  specialize (H2 (fun s c _ => proj1 (proj2 (_update_car_speed_frame s c)))
                 l1 [] [] (Forall2_nil _)).
  simpl in H2.
  pose proof (Forall2_map_r (_update_car_position self) (speed_pass self [] l1))
    as H3.
  assert (H23 : Forall2 (fun b c' => lane c' = lane b)
                        l1 (position_pass self (speed_pass self [] l1))).
  { refine (Forall2_compose _ _ _ _ _ _ _ H2 H3).
    intros a b c Hab ->. exact Hab. }
  refine (Forall2_compose _ _ _ _ _ _ _ H1 H23).
  intros a b c Hab Hbc. simpl in Hbc. now rewrite Hbc.
Qed.
